(** * Ink.UI.SortableList: the drag-and-reorder gesture of [ink.sortablelist.js]

    The component keeps two session fields, [_isMoving] (the dragged item) and
    [_placeholder] (its clone), and edits the host document through the
    helpers of [Ink.Dom.Element], [Ink.Dom.Css] and [Ink.Dom.Selector].  The
    methods below are written in state-passing style over a record holding the
    component and the document it edits; the value a handler returns to the
    event system ([false], or nothing) is not part of that state and is left
    out. *)

From stdpp Require Import base decidable countable list strings gmap.
From Stdlib Require Import ZArith.

Local Open Scope Z_scope.

(** ** The host document *)

(** A reference to a DOM element.  The component compares elements with [===]
    only; [documentElement] is the root it marks while a drag is going on, and
    [node n] is any other element, [n] being its handle. *)
Inductive Element : Type :=
  | documentElement
  | node (handle : nat).

#[global] Instance Element_eq_dec : EqDecision Element.
Proof. solve_decision. Defined.

#[global] Instance Element_countable : Countable Element.
Proof.
  refine (inj_countable'
            (fun e => match e with documentElement => None | node n => Some n end)
            (fun o => match o with None => documentElement | Some n => node n end) _).
  intros []; reflexivity.
Defined.

(** The part of the document the component reads and writes: the sibling
    sequence of the sortable container, the CSS class names carried by each
    element, and the number of handles handed out so far (cloning a node
    takes the next one). *)
Record Document : Type := mkDocument {
  childNodes : list Element;
  classNames : gset (Element * string);
  allocated : nat
}.

Definition with_childNodes (l : list Element) (d : Document) : Document :=
  mkDocument l (classNames d) (allocated d).

Definition with_classNames (c : gset (Element * string)) (d : Document) : Document :=
  mkDocument (childNodes d) c (allocated d).

(** *** Sibling sequences *)

Section Siblings.
Context {A : Type} `{EqDecision A}.

(** [detach x l]: the sequence without [x]. *)
Definition detach (x : A) (l : list A) : list A :=
  filter (fun y => y <> x) l.

(** [place_before new target l]: [new] put in front of the first [target]. *)
Fixpoint place_before (new target : A) (l : list A) : list A :=
  match l with
  | [] => []
  | x :: l' =>
      if decide (x = target) then new :: x :: l'
      else x :: place_before new target l'
  end.

(** [place_after new target l]: [new] put right behind the first [target]. *)
Fixpoint place_after (new target : A) (l : list A) : list A :=
  match l with
  | [] => []
  | x :: l' =>
      if decide (x = target) then x :: new :: l'
      else x :: place_after new target l'
  end.

(** [insert_before new target l]: [new] moved from wherever it is to right
    in front of [target]; nothing happens when [target] is not in [l] or is
    [new] itself. *)
Definition insert_before (new target : A) (l : list A) : list A :=
  if decide (target ∈ l) then
    if decide (new = target) then l
    else place_before new target (detach new l)
  else l.

(** [insert_after new target l]: the same, to right behind [target]. *)
Definition insert_after (new target : A) (l : list A) : list A :=
  if decide (target ∈ l) then
    if decide (new = target) then l
    else place_after new target (detach new l)
  else l.

(** [nextSibling l x]: the element right behind the first [x], if any. *)
Fixpoint nextSibling (l : list A) (x : A) : option A :=
  match l with
  | [] => None
  | y :: l' => if decide (y = x) then head l' else nextSibling l' x
  end.

(** [adjacent l x y]: [x] and [y] are next to each other, in either order. *)
Definition adjacent (l : list A) (x y : A) : Prop :=
  nextSibling l x = Some y \/ nextSibling l y = Some x.

(** [exchange a b l]: every [a] replaced by [b] and every [b] by [a]. *)
Definition exchange (a b : A) (l : list A) : list A :=
  (fun x => if decide (x = a) then b else if decide (x = b) then a else x) <$> l.

(** [in_order a b c l]: [a], [b] and [c] occur in [l], in this order. *)
Definition in_order (a b c : A) (l : list A) : Prop :=
  exists X Y Z W, l = X ++ a :: Y ++ b :: Z ++ c :: W.
End Siblings.

(** *** Tree mutation, class toggling, cloning *)

(** Modelled from the spec: [Element.insertBefore] of [Ink.Dom.Element] is not
    among the sources.  Section 6 lists it as the host's insert-before tree
    mutation: [newElm] leaves the place it has, if it has one, and becomes the
    sibling right in front of [targetElm].  Section 7 lets anomalous input
    degrade to a no-op, which is what an absent argument, a target outside
    the tree and [newElm] being its own target do here. *)
Definition Element_insertBefore (newElm targetElm : option Element) (d : Document) : Document :=
  match newElm, targetElm with
  | Some n, Some t => with_childNodes (insert_before n t (childNodes d)) d
  | _, _ => d
  end.

(** Modelled from the spec: [Element.insertAfter] of [Ink.Dom.Element], the
    host's insert-after tree mutation of section 6, with the same treatment of
    anomalous input as [Element_insertBefore]. *)
Definition Element_insertAfter (newElm targetElm : option Element) (d : Document) : Document :=
  match newElm, targetElm with
  | Some n, Some t => with_childNodes (insert_after n t (childNodes d)) d
  | _, _ => d
  end.

(** Modelled from the spec: [Element.remove] of [Ink.Dom.Element], the host's
    remove tree mutation of section 6; section 4.3 makes [stopMoving] safe in
    the Idle state, so removing an absent element does nothing. *)
Definition Element_remove (elm : option Element) (d : Document) : Document :=
  match elm with
  | Some e => with_childNodes (detach e (childNodes d)) d
  | None => d
  end.

(** Modelled from the spec: [Css.addClassName] of [Ink.Dom.Css], the host's
    "add a named visual marker on an element" of section 6. *)
Definition Css_addClassName (elm : option Element) (className : string) (d : Document) : Document :=
  match elm with
  | Some e => with_classNames (classNames d ∪ {[ (e, className) ]}) d
  | None => d
  end.

(** Modelled from the spec: [Css.removeClassName] of [Ink.Dom.Css], the host's
    "remove a named visual marker on an element" of section 6. *)
Definition Css_removeClassName (elm : option Element) (className : string) (d : Document) : Document :=
  match elm with
  | Some e => with_classNames (classNames d ∖ {[ (e, className) ]}) d
  | None => d
  end.

(** Modelled from the spec: the DOM's [cloneNode(true)], the host's clone-node
    of section 6 (the placeholder is "a structural clone of the dragged
    item").  The clone is a new element, outside the tree, that carries the
    class names of its original. *)
Definition cloneNode (e : Element) (d : Document) : Element * Document :=
  let c := node (allocated d) in
  let copied : gset (Element * string) :=
    set_map (fun p : Element * string => (c, p.2))
            (filter (fun p : Element * string => p.1 = e) (classNames d)) in
  (c, mkDocument (childNodes d) (classNames d ∪ copied) (S (allocated d))).

(** ** The component *)

(** [this._options], as [Common.options] fills it in the constructor.  A
    selector option holds a string or a falsy value ([null], [false]): [None]
    stands for the latter. *)
Record Options : Type := mkOptions {
  placeholderClass : string;
  draggedClass : string;
  draggingClass : string;
  dragSelector : string;
  dragObject : option string;
  handleSelector : option string;
  moveSelector : option string;
  swap : bool;
  cancelMouseOut : bool
}.

Definition defaultOptions : Options :=
  mkOptions "placeholder" "hide-all" "dragging" "li" None None None false false.

(** JavaScript truthiness of a string-or-falsy option: the empty string is
    falsy too.  The result is the selector to use, when there is one. *)
Definition truthy (o : option string) : option string :=
  match o with
  | Some s => if decide (s = EmptyString) then None else Some s
  | None => None
  end.

(** The instance fields the gesture uses ([this]). *)
Record SortableList : Type := mkSortableList {
  _options : Options;
  _isMoving : option Element;
  _placeholder : option Element
}.

(** The constructor: the deprecated [dragObject] overrides [dragSelector], and
    no gesture is going on. *)
Definition SortableList_new (options : Options) : SortableList :=
  let dragSelector' :=
    match truthy (dragObject options) with
    | Some s => s
    | None => dragSelector options
    end in
  mkSortableList
    (mkOptions (placeholderClass options) (draggedClass options) (draggingClass options)
               dragSelector' (dragObject options) (handleSelector options)
               (moveSelector options) (swap options) (cancelMouseOut options))
    None None.

(** What a method reads and writes: the instance and the document. *)
Record State : Type := mkState {
  self : SortableList;
  document : Document
}.

Definition with_document (f : Document -> Document) (s : State) : State :=
  mkState (self s) (f (document s)).

Definition options (s : State) : Options := _options (self s).

(** The two fields of a pointer event the handlers read. *)
Record Event : Type := mkEvent {
  target : Element;
  currentTarget : Element
}.

Section Component.
(** [Element.offset]: the document-relative [(left, top)] of an element's
    top-left corner, a result of the host's layout.  The code only compares
    coordinates with [>]; they are taken to be integers. *)
Variable offset : Document -> Element -> Z * Z.

(** [Selector.matchesSelector]: whether an element matches a CSS selector
    in the current document. *)
Variable matchesSelector : Document -> Element -> string -> bool.

Definition _addMovingClasses (s : State) : State :=
  let s1 := with_document (Css_addClassName (_placeholder (self s)) (placeholderClass (options s))) s in
  let s2 := with_document (Css_addClassName (_isMoving (self s)) (draggedClass (options s))) s1 in
  with_document (Css_addClassName (Some documentElement) (draggingClass (options s))) s2.

Definition _removeMovingClasses (s : State) : State :=
  let s1 :=
    match _isMoving (self s) with
    | Some m => with_document (Css_removeClassName (Some m) (draggedClass (options s))) s
    | None => s
    end in
  let s2 :=
    match _placeholder (self s) with
    | Some p => with_document (Css_removeClassName (Some p) (placeholderClass (options s))) s1
    | None => s1
    end in
  with_document (Css_removeClassName (Some documentElement) (draggingClass (options s))) s2.

Definition _movePlaceholder (target : Element) (s : State) : State :=
  let placeholder := _placeholder (self s) in
  match placeholder with
  | None => with_document (Element_insertAfter placeholder (Some target)) s
  | Some p =>
      if swap (options s) then
        let s1 := with_document (Element_insertAfter placeholder (Some target)) s in
        let s2 := with_document (Element_insertBefore (Some target) (_isMoving (self s))) s1 in
        with_document (Element_insertBefore (_isMoving (self s)) placeholder) s2
      else
        let target_position := offset (document s) target in
        let placeholder_position := offset (document s) p in
        let from_top := target_position.2 >? placeholder_position.2 in
        let from_left := target_position.1 >? placeholder_position.1 in
        let s1 :=
          if (from_top && from_left) || (negb from_top && negb from_left) then
            with_document (Element_insertBefore placeholder (Some target)) s
          else
            with_document (Element_insertAfter placeholder (Some target)) s in
        with_document (Element_insertBefore (_isMoving (self s)) placeholder) s1
  end.

(** The test of [validateMove]'s last [if]: no [moveSelector], or [elem]
    matches it. *)
Definition moveAccepted (elem : Element) (s : State) : bool :=
  match truthy (moveSelector (options s)) with
  | None => true
  | Some sel => matchesSelector (document s) elem sel
  end.

(** The test of [_onDown]'s second guard: a [handleSelector] is set and the
    event's target does not match it. *)
Definition handleRejects (ev : Event) (s : State) : bool :=
  match truthy (handleSelector (options s)) with
  | None => false
  | Some sel => negb (matchesSelector (document s) (target ev) sel)
  end.

Definition stopMoving (s : State) : State :=
  let s1 := _removeMovingClasses s in
  let s2 := with_document (Element_remove (_placeholder (self s1))) s1 in
  mkState (mkSortableList (_options (self s2)) None None) (document s2).

Definition validateMove (elem : Element) (s : State) : State :=
  match _isMoving (self s), _placeholder (self s) with
  | Some moving, Some placeholder =>
      if decide (elem = placeholder) then s
      else if decide (elem = moving) then s
      else
        if moveAccepted elem s then _movePlaceholder elem s
        else stopMoving s
  | _, _ => s
  end.

Definition _onDown (ev : Event) (s : State) : State :=
  match _isMoving (self s), _placeholder (self s) with
  | None, None =>
      if handleRejects ev s then s
      else
        let tgtEl := currentTarget ev in
        let '(clone, d) := cloneNode tgtEl (document s) in
        let s1 := mkState (mkSortableList (_options (self s)) (Some tgtEl) (Some clone)) d in
        let s2 := _movePlaceholder tgtEl s1 in
        _addMovingClasses s2
  | _, _ => s
  end.

Definition _onMove (ev : Event) (s : State) : State :=
  validateMove (currentTarget ev) s.

Definition _onUp (ev : Event) (s : State) : State :=
  match _isMoving (self s), _placeholder (self s) with
  | Some moving, Some placeholder =>
      if decide (currentTarget ev = moving) then s
      else if decide (currentTarget ev = placeholder) then s
      else
        let s1 := with_document (Element_insertBefore (_isMoving (self s)) (_placeholder (self s))) s in
        stopMoving s1
  | _, _ => s
  end.

(** What can happen to an instance: the three pointer handlers bound by
    [_observe], the [mouseleave] handler it binds when [cancelMouseOut] is
    set, and the two public methods. *)
Inductive Action : Type :=
  | PointerDown (ev : Event)
  | PointerMove (ev : Event)
  | PointerUp (ev : Event)
  | MouseLeave
  | CallStopMoving
  | CallValidateMove (elem : Element).

Definition step (a : Action) (s : State) : State :=
  match a with
  | PointerDown ev => _onDown ev s
  | PointerMove ev => _onMove ev s
  | PointerUp ev => _onUp ev s
  | MouseLeave => if cancelMouseOut (options s) then stopMoving s else s
  | CallStopMoving => stopMoving s
  | CallValidateMove elem => validateMove elem s
  end.

Definition run (acts : list Action) (s : State) : State :=
  foldl (fun st a => step a st) s acts.

(** The state right after [new SortableList(...)] on document [d]. *)
Definition initial (opts : Options) (d : Document) : State :=
  mkState (SortableList_new opts) d.

(** The session invariant of the data model: both fields set, or both absent. *)
Definition session_ok (s : State) : Prop :=
  is_Some (_isMoving (self s)) <-> is_Some (_placeholder (self s)).

(** An active session: [d] is dragged and [p] is its placeholder. *)
Definition dragging (d p : Element) (s : State) : Prop :=
  _isMoving (self s) = Some d /\ _placeholder (self s) = Some p.

Definition idle (s : State) : Prop :=
  _isMoving (self s) = None /\ _placeholder (self s) = None.

(** An active session whose dragged item and placeholder are two siblings of
    the tree, which lists no element twice. *)
Definition attached (d p : Element) (s : State) : Prop :=
  dragging d p s /\ d <> p /\ NoDup (childNodes (document s)) /\
  d ∈ childNodes (document s) /\ p ∈ childNodes (document s).

(** A state the component can be in: the tree lists no element twice and
    holds only elements whose handle has been given out, and the session is
    idle or attached. *)
Definition well_formed (s : State) : Prop :=
  NoDup (childNodes (document s)) /\
  (forall n, node n ∈ childNodes (document s) -> (n < allocated (document s))%nat) /\
  (idle s \/ exists d p, attached d p s).

(** What the event system delivers: pointer-down and pointer-move are
    delegated to elements of the container, so their [currentTarget] is one
    of its children; so is, here, the element [validateMove] is called on. *)
Definition delivered (a : Action) (s : State) : Prop :=
  match a with
  | PointerDown ev | PointerMove ev => currentTarget ev ∈ childNodes (document s)
  | CallValidateMove elem => elem ∈ childNodes (document s)
  | PointerUp _ | MouseLeave | CallStopMoving => True
  end.

(** The actions of a run are each delivered in the state they meet. *)
Fixpoint all_delivered (acts : list Action) (s : State) : Prop :=
  match acts with
  | [] => True
  | a :: rest => delivered a s /\ all_delivered rest (step a s)
  end.

(** The items of the list: the siblings other than the placeholder. *)
Definition items (s : State) : list Element :=
  match _placeholder (self s) with
  | Some p => detach p (childNodes (document s))
  | None => childNodes (document s)
  end.

(** While a session is active the placeholder is the sibling right behind
    the dragged item. *)
Definition placeholder_follows (s : State) : Prop :=
  forall d p, dragging d p s -> nextSibling (childNodes (document s)) d = Some p.

(** [e] carries the class name [className]. *)
Definition marked (e : Element) (className : string) (s : State) : Prop :=
  (e, className) ∈ classNames (document s).

(** The rule of section 4.2 for reorder mode, in the spec's words: the
    placeholder goes in front of the candidate [C] when
    [(C.x > placeholder.x) == (C.y > placeholder.y)]. *)
Definition goes_before (C p : Element) (s : State) : bool :=
  Bool.eqb ((offset (document s) C).1 >? (offset (document s) p).1)
           ((offset (document s) C).2 >? (offset (document s) p).2).

End Component.

(** *** Two hosts to run the component on *)

(** A layout that stacks the siblings in one column: the [i]-th child has its
    corner at [(0, i)], and an element outside the tree at [(0, 0)]. *)
Fixpoint position (e : Element) (l : list Element) : option Z :=
  match l with
  | [] => None
  | x :: l' => if decide (x = e) then Some 0 else Z.succ <$> position e l'
  end.

Definition column_offset (d : Document) (e : Element) : Z * Z :=
  (0, default 0 (position e (childNodes d))).

(** A layout that puts each sibling below and to the right of the one
    before it: the [i]-th child has its corner at [(i, i)]. *)
Definition diagonal_offset (d : Document) (e : Element) : Z * Z :=
  (default 0 (position e (childNodes d)), default 0 (position e (childNodes d))).

(** Selector matching by class name: [e] matches [sel] when it carries the
    class name [sel]. *)
Definition matches_class (d : Document) (e : Element) (sel : string) : bool :=
  bool_decide ((e, sel) ∈ classNames d).

(** The list [A; B; C] of the spec's scenarios, no class names set. *)
Definition three_items : Document :=
  mkDocument [node 0; node 1; node 2] ∅ 3.

Definition swapOptions : Options :=
  mkOptions "placeholder" "hide-all" "dragging" "li" None None None true false.

(** Only elements of class [droppable] accept a move; none of the three
    items is one. *)
Definition pickyOptions : Options :=
  mkOptions "placeholder" "hide-all" "dragging" "li" None None (Some "droppable")
            false false.

(** Only an element of class [grip] starts a drag. *)
Definition gripOptions : Options :=
  mkOptions "placeholder" "hide-all" "dragging" "li" None (Some "grip") None
            false false.

(** A pointer event on [e] itself. *)
Definition press (e : Element) : Event := mkEvent e e.

(** The state after pressing the first of the three items: the tree is
    [A; P; B; C], with [P], the element [node 3], the placeholder. *)
Definition first_pressed (opts : Options) : State :=
  _onDown column_offset matches_class (press (node 0)) (initial opts three_items).

(** A drag of [A] under way in [A; P; B; C], before any marker is set. *)
Definition unmarked_drag : State :=
  mkState (mkSortableList defaultOptions (Some (node 0)) (Some (node 3)))
          (mkDocument [node 0; node 3; node 1; node 2] ∅ 4).

(** Press [A], move over [C], release on the page. *)
Definition drag_first_over_last : list Action :=
  [PointerDown (press (node 0)); PointerMove (press (node 2));
   PointerUp (press documentElement)].

(** ** Facts about sibling sequences *)

Section SiblingFacts.
Context {A : Type} `{EqDecision A}.
Implicit Types (x y a b c n t : A) (l X Y Z W : list A).

Lemma detach_app x l1 l2 : detach x (l1 ++ l2) = detach x l1 ++ detach x l2.
Proof. apply filter_app. Qed.

Lemma detach_cons_eq x l : detach x (x :: l) = detach x l.
Proof. unfold detach. rewrite filter_cons_False; [done | tauto]. Qed.

Lemma detach_cons_ne x y l : y <> x -> detach x (y :: l) = y :: detach x l.
Proof. intros Hne. unfold detach. by rewrite filter_cons_True. Qed.

Lemma elem_of_detach x y l : y ∈ detach x l <-> y <> x /\ y ∈ l.
Proof. unfold detach. by rewrite list_elem_of_filter. Qed.

Lemma detach_absent x l : x ∉ l -> detach x l = l.
Proof.
  induction l as [|y l IH]; intros Hx; [done|].
  apply not_elem_of_cons in Hx as [Hxy Hxl].
  rewrite detach_cons_ne by congruence. by rewrite IH.
Qed.

Lemma NoDup_detach x l : NoDup l -> NoDup (detach x l).
Proof. apply NoDup_filter. Qed.

Lemma detach_detach x l : detach x (detach x l) = detach x l.
Proof. apply detach_absent. rewrite elem_of_detach. tauto. Qed.

Lemma place_before_skip n t l1 l2 :
  t ∉ l1 -> place_before n t (l1 ++ l2) = l1 ++ place_before n t l2.
Proof.
  induction l1 as [|y l1 IH]; intros Ht; [done|].
  apply not_elem_of_cons in Ht as [Hty Htl]. simpl.
  destruct (decide (y = t)); [congruence|]. by rewrite IH.
Qed.

Lemma place_before_here n t l : place_before n t (t :: l) = n :: t :: l.
Proof. simpl. by destruct (decide (t = t)). Qed.

Lemma place_before_cons_ne n t y l :
  y <> t -> place_before n t (y :: l) = y :: place_before n t l.
Proof. intros Hne. simpl. by destruct (decide (y = t)). Qed.

Lemma place_after_skip n t l1 l2 :
  t ∉ l1 -> place_after n t (l1 ++ l2) = l1 ++ place_after n t l2.
Proof.
  induction l1 as [|y l1 IH]; intros Ht; [done|].
  apply not_elem_of_cons in Ht as [Hty Htl]. simpl.
  destruct (decide (y = t)); [congruence|]. by rewrite IH.
Qed.

Lemma place_after_here n t l : place_after n t (t :: l) = t :: n :: l.
Proof. simpl. by destruct (decide (t = t)). Qed.

Lemma place_after_cons_ne n t y l :
  y <> t -> place_after n t (y :: l) = y :: place_after n t l.
Proof. intros Hne. simpl. by destruct (decide (y = t)). Qed.

Lemma nextSibling_skip x l1 l2 :
  x ∉ l1 -> nextSibling (l1 ++ l2) x = nextSibling l2 x.
Proof.
  induction l1 as [|y l1 IH]; intros Hx; [done|].
  apply not_elem_of_cons in Hx as [Hxy Hxl]. simpl.
  destruct (decide (y = x)); [congruence|]. by apply IH.
Qed.

Lemma nextSibling_here x l : nextSibling (x :: l) x = head l.
Proof. simpl. by destruct (decide (x = x)). Qed.

Lemma nextSibling_cons_ne x y l :
  y <> x -> nextSibling (y :: l) x = nextSibling l x.
Proof. intros Hne. simpl. by destruct (decide (y = x)). Qed.

Lemma exchange_app a b l1 l2 :
  exchange a b (l1 ++ l2) = exchange a b l1 ++ exchange a b l2.
Proof. apply fmap_app. Qed.

Lemma exchange_cons_l a b l : exchange a b (a :: l) = b :: exchange a b l.
Proof. unfold exchange. rewrite fmap_cons. by destruct (decide (a = a)). Qed.

Lemma exchange_cons_r a b l : exchange a b (b :: l) = a :: exchange a b l.
Proof.
  unfold exchange. rewrite fmap_cons.
  destruct (decide (b = a)) as [->|]; [done|]. by destruct (decide (b = b)).
Qed.

Lemma exchange_cons_ne a b y l :
  y <> a -> y <> b -> exchange a b (y :: l) = y :: exchange a b l.
Proof.
  intros Ha Hb. unfold exchange. rewrite fmap_cons.
  destruct (decide (y = a)); [congruence|]. by destruct (decide (y = b)).
Qed.

Lemma exchange_absent a b l : a ∉ l -> b ∉ l -> exchange a b l = l.
Proof.
  induction l as [|y l IH]; intros Ha Hb; [done|].
  apply not_elem_of_cons in Ha as [Hay Hal].
  apply not_elem_of_cons in Hb as [Hby Hbl].
  unfold exchange in *. rewrite fmap_cons, IH by done.
  destruct (decide (y = a)); [congruence|].
  destruct (decide (y = b)); [congruence|]. done.
Qed.

Lemma split_two a b l :
  a <> b -> a ∈ l -> b ∈ l ->
  (exists X Y Z, l = X ++ a :: Y ++ b :: Z) \/
  (exists X Y Z, l = X ++ b :: Y ++ a :: Z).
Proof.
  intros Hab Ha Hb.
  apply list_elem_of_split in Ha as (X & R & ->).
  apply elem_of_app in Hb as [Hb|Hb].
  - apply list_elem_of_split in Hb as (X1 & X2 & ->).
    right. exists X1, X2, R. by rewrite <- app_assoc.
  - apply elem_of_cons in Hb as [Hb|Hb]; [congruence|].
    apply list_elem_of_split in Hb as (R1 & R2 & ->).
    left. by exists X, R1, R2.
Qed.

Lemma split_three a b c l :
  a <> b -> a <> c -> b <> c -> a ∈ l -> b ∈ l -> c ∈ l ->
  in_order a b c l \/ in_order a c b l \/ in_order b a c l \/
  in_order b c a l \/ in_order c a b l \/ in_order c b a l.
Proof.
  intros Hab Hac Hbc Ha Hb Hc.
  assert (Hsplit : forall u v X Y Z, u <> c -> v <> c -> c ∈ X ++ u :: Y ++ v :: Z ->
            in_order c u v (X ++ u :: Y ++ v :: Z) \/
            in_order u c v (X ++ u :: Y ++ v :: Z) \/
            in_order u v c (X ++ u :: Y ++ v :: Z)).
  { intros u v X Y Z Hu Hv Hin.
    apply elem_of_app in Hin as [Hin|Hin].
    - apply list_elem_of_split in Hin as (X1 & X2 & ->).
      left. exists X1, X2, Y, Z. by rewrite <- app_assoc.
    - apply elem_of_cons in Hin as [Hin|Hin]; [congruence|].
      apply elem_of_app in Hin as [Hin|Hin].
      + apply list_elem_of_split in Hin as (Y1 & Y2 & ->).
        right; left. exists X, Y1, Y2, Z. by rewrite <- app_assoc.
      + apply elem_of_cons in Hin as [Hin|Hin]; [congruence|].
        apply list_elem_of_split in Hin as (Z1 & Z2 & ->).
        right; right. by exists X, Y, Z1, Z2. }
  destruct (split_two a b l Hab Ha Hb) as [(X & Y & Z & ->)|(X & Y & Z & ->)].
  - destruct (Hsplit a b X Y Z Hac Hbc Hc) as [?|[?|?]]; tauto.
  - destruct (Hsplit b a X Y Z Hbc Hac Hc) as [?|[?|?]]; tauto.
Qed.

Lemma NoDup_in_order a b c X Y Z W :
  NoDup (X ++ a :: Y ++ b :: Z ++ c :: W) ->
  ((a ∉ X) ∧ (b ∉ X) ∧ (c ∉ X)) ∧ ((a ∉ Y) ∧ (b ∉ Y) ∧ (c ∉ Y)) ∧
  ((a ∉ Z) ∧ (b ∉ Z) ∧ (c ∉ Z)) ∧ ((a ∉ W) ∧ (b ∉ W) ∧ (c ∉ W)) ∧
  a ≠ b ∧ a ≠ c ∧ b ≠ c.
Proof.
  rewrite NoDup_app, NoDup_cons, NoDup_app, NoDup_cons, NoDup_app, NoDup_cons.
  intros (_ & HX & Ha & _ & HY & Hb & _ & HZ & Hc & _).
  set_solver.
Qed.
End SiblingFacts.

(** Rewriting a sequence given by its pieces, [X ++ a :: Y ++ ...], where
    the hypotheses say which named elements the pieces do not contain. *)
Ltac sibling_side :=
  solve [ assumption | congruence
        | repeat (rewrite elem_of_app || rewrite elem_of_cons); auto 20 ].

Ltac sibling_norm :=
  repeat first
    [ rewrite detach_app
    | rewrite detach_cons_eq
    | rewrite detach_cons_ne by sibling_side
    | match goal with
      | H : ?x ∉ ?L |- context [detach ?x ?L] => rewrite (detach_absent x L H)
      end
    | rewrite place_before_here
    | rewrite place_before_cons_ne by sibling_side
    | rewrite place_before_skip by sibling_side
    | rewrite place_after_here
    | rewrite place_after_cons_ne by sibling_side
    | rewrite place_after_skip by sibling_side
    | rewrite nextSibling_here
    | rewrite nextSibling_cons_ne by sibling_side
    | rewrite nextSibling_skip by sibling_side
    | rewrite exchange_app
    | rewrite exchange_cons_l
    | rewrite exchange_cons_r
    | rewrite exchange_cons_ne by sibling_side
    | match goal with
      | H1 : ?x ∉ ?L, H2 : ?y ∉ ?L |- context [exchange ?x ?y ?L] =>
          rewrite (exchange_absent x y L H1 H2)
      end ].

Section RelocationFacts.
Context {A : Type} `{EqDecision A}.
Implicit Types (x y a b c n t d p C : A) (l X Y Z W : list A).

Lemma insert_before_eval n t l :
  t ∈ l -> n <> t -> insert_before n t l = place_before n t (detach n l).
Proof.
  intros Ht Hne. unfold insert_before.
  destruct (decide (t ∈ l)); [|done]. by destruct (decide (n = t)).
Qed.

Lemma insert_after_eval n t l :
  t ∈ l -> n <> t -> insert_after n t l = place_after n t (detach n l).
Proof.
  intros Ht Hne. unfold insert_after.
  destruct (decide (t ∈ l)); [|done]. by destruct (decide (n = t)).
Qed.

Lemma insert_before_split n t l :
  t ∈ l -> n <> t ->
  exists L1 L2, detach n l = L1 ++ t :: L2 ∧ insert_before n t l = L1 ++ n :: t :: L2 ∧ t ∉ L1.
Proof.
  intros Ht Hne.
  assert (Hin : t ∈ detach n l) by (apply elem_of_detach; split; [congruence|done]).
  apply list_elem_of_split_l in Hin as (L1 & L2 & Heq & HL1).
  exists L1, L2. split; [done|]. split; [|done].
  rewrite insert_before_eval, Heq by done.
  rewrite place_before_skip by done. by rewrite place_before_here.
Qed.

Lemma insert_after_split n t l :
  t ∈ l -> n <> t ->
  exists L1 L2, detach n l = L1 ++ t :: L2 ∧ insert_after n t l = L1 ++ t :: n :: L2 ∧ t ∉ L1.
Proof.
  intros Ht Hne.
  assert (Hin : t ∈ detach n l) by (apply elem_of_detach; split; [congruence|done]).
  apply list_elem_of_split_l in Hin as (L1 & L2 & Heq & HL1).
  exists L1, L2. split; [done|]. split; [|done].
  rewrite insert_after_eval, Heq by done.
  rewrite place_after_skip by done. by rewrite place_after_here.
Qed.

(** A relocation never drops a sibling. *)
Lemma elem_of_insert_before n t x l : x ∈ l -> x ∈ insert_before n t l.
Proof.
  intros Hx. unfold insert_before.
  destruct (decide (t ∈ l)) as [Ht|]; [|done].
  destruct (decide (n = t)) as [|Hne]; [done|].
  destruct (insert_before_split n t l Ht Hne) as (L1 & L2 & Hd & Hi & _).
  rewrite <- insert_before_eval, Hi by done.
  destruct (decide (x = n)) as [->|Hxn].
  { rewrite elem_of_app, !elem_of_cons. tauto. }
  assert (Hin : x ∈ detach n l) by (by apply elem_of_detach).
  rewrite Hd in Hin. revert Hin. rewrite !elem_of_app, !elem_of_cons. tauto.
Qed.

Lemma elem_of_insert_after n t x l : x ∈ l -> x ∈ insert_after n t l.
Proof.
  intros Hx. unfold insert_after.
  destruct (decide (t ∈ l)) as [Ht|]; [|done].
  destruct (decide (n = t)) as [|Hne]; [done|].
  destruct (insert_after_split n t l Ht Hne) as (L1 & L2 & Hd & Hi & _).
  rewrite <- insert_after_eval, Hi by done.
  destruct (decide (x = n)) as [->|Hxn].
  { rewrite elem_of_app, !elem_of_cons. tauto. }
  assert (Hin : x ∈ detach n l) by (by apply elem_of_detach).
  rewrite Hd in Hin. revert Hin. rewrite !elem_of_app, !elem_of_cons. tauto.
Qed.

(** A relocation brings in no element but the one it moves. *)
Lemma elem_of_insert_before_inv n t x l :
  x ∈ insert_before n t l -> x = n ∨ x ∈ l.
Proof.
  unfold insert_before.
  destruct (decide (t ∈ l)) as [Ht|]; [|tauto].
  destruct (decide (n = t)) as [|Hne]; [tauto|].
  destruct (insert_before_split n t l Ht Hne) as (L1 & L2 & Hd & Hi & _).
  rewrite <- insert_before_eval, Hi by done. intros Hx.
  assert (Hin : x = n ∨ x ∈ detach n l).
  { rewrite Hd. revert Hx. rewrite !elem_of_app, !elem_of_cons. tauto. }
  rewrite elem_of_detach in Hin. tauto.
Qed.

Lemma elem_of_insert_after_inv n t x l :
  x ∈ insert_after n t l -> x = n ∨ x ∈ l.
Proof.
  unfold insert_after.
  destruct (decide (t ∈ l)) as [Ht|]; [|tauto].
  destruct (decide (n = t)) as [|Hne]; [tauto|].
  destruct (insert_after_split n t l Ht Hne) as (L1 & L2 & Hd & Hi & _).
  rewrite <- insert_after_eval, Hi by done. intros Hx.
  assert (Hin : x = n ∨ x ∈ detach n l).
  { rewrite Hd. revert Hx. rewrite !elem_of_app, !elem_of_cons. tauto. }
  rewrite elem_of_detach in Hin. tauto.
Qed.

Lemma elem_of_place_after_inv n t x l :
  x ∈ place_after n t l -> x = n ∨ x ∈ l.
Proof.
  induction l as [|y l IH]; simpl; [tauto|].
  destruct (decide (y = t)); rewrite !elem_of_cons; tauto.
Qed.

(** A relocation next to a sibling of the tree brings the moved element in. *)
Lemma insert_before_enters n t l : t ∈ l -> n ∈ insert_before n t l.
Proof.
  intros Ht. destruct (decide (n = t)) as [->|Hne].
  - by apply elem_of_insert_before.
  - destruct (insert_before_split n t l Ht Hne) as (L1 & L2 & _ & -> & _).
    rewrite elem_of_app, !elem_of_cons. tauto.
Qed.

Lemma insert_after_enters n t l : t ∈ l -> n ∈ insert_after n t l.
Proof.
  intros Ht. destruct (decide (n = t)) as [->|Hne].
  - by apply elem_of_insert_after.
  - destruct (insert_after_split n t l Ht Hne) as (L1 & L2 & _ & -> & _).
    rewrite elem_of_app, !elem_of_cons. tauto.
Qed.

(** A relocation keeps the siblings distinct. *)
Lemma NoDup_insert_before n t l : NoDup l -> NoDup (insert_before n t l).
Proof.
  intros Hnd. unfold insert_before.
  destruct (decide (t ∈ l)) as [Ht|]; [|done].
  destruct (decide (n = t)) as [|Hne]; [done|].
  destruct (insert_before_split n t l Ht Hne) as (L1 & L2 & Hd & Hi & _).
  rewrite <- insert_before_eval, Hi by done.
  assert (Hnd' : NoDup (n :: L1 ++ t :: L2)).
  { rewrite <- Hd. apply NoDup_cons. split; [|by apply NoDup_detach].
    rewrite elem_of_detach. tauto. }
  revert Hnd'. apply NoDup_Permutation_proper. symmetry. apply Permutation_middle.
Qed.

Lemma NoDup_insert_after n t l : NoDup l -> NoDup (insert_after n t l).
Proof.
  intros Hnd. unfold insert_after.
  destruct (decide (t ∈ l)) as [Ht|]; [|done].
  destruct (decide (n = t)) as [|Hne]; [done|].
  destruct (insert_after_split n t l Ht Hne) as (L1 & L2 & Hd & Hi & _).
  rewrite <- insert_after_eval, Hi by done.
  assert (Hnd' : NoDup (n :: L1 ++ t :: L2)).
  { rewrite <- Hd. apply NoDup_cons. split; [|by apply NoDup_detach].
    rewrite elem_of_detach. tauto. }
  revert Hnd'. apply NoDup_Permutation_proper. symmetry.
  etransitivity; [apply Permutation_middle|].
  apply Permutation_app_head, perm_swap.
Qed.

(** What [insert_before] is for: the moved element sits right in front of
    its target. *)
Lemma insert_before_adjacent n t l :
  NoDup l -> t ∈ l -> n <> t -> nextSibling (insert_before n t l) n = Some t.
Proof.
  intros Hnd Ht Hne.
  destruct (insert_before_split n t l Ht Hne) as (L1 & L2 & Hd & -> & _).
  assert (n ∉ L1).
  { intros Hin. assert (Hin' : n ∈ detach n l).
    { rewrite Hd, elem_of_app. tauto. }
    apply elem_of_detach in Hin'. tauto. }
  rewrite nextSibling_skip by done. by rewrite nextSibling_here.
Qed.

Lemma insert_after_adjacent n t l :
  NoDup l -> t ∈ l -> n <> t -> nextSibling (insert_after n t l) t = Some n.
Proof.
  intros Hnd Ht Hne.
  destruct (insert_after_split n t l Ht Hne) as (L1 & L2 & Hd & -> & HL1).
  rewrite nextSibling_skip by done. by rewrite nextSibling_here.
Qed.

Lemma insert_before_self x l : insert_before x x l = l.
Proof.
  unfold insert_before. destruct (decide (x ∈ l)); [|done].
  by destruct (decide (x = x)).
Qed.

(** The placement [_onDown] makes, with the candidate [t] the pressed item
    itself and the clone [c] not yet in the tree: whichever branch runs, the
    clone lands right behind the item and nothing else moves. *)
Lemma first_placement t c l :
  NoDup l -> t ∈ l -> c ∉ l ->
  insert_before t c (insert_before t t (insert_after c t l)) = place_after c t l ∧
  insert_before t c (insert_before c t l) = place_after c t l ∧
  insert_before t c (insert_after c t l) = place_after c t l.
Proof.
  intros Hnd Ht Hc. rewrite insert_before_self.
  assert (Hne : c <> t) by congruence.
  apply list_elem_of_split_l in Ht as (L1 & L2 & -> & HL1).
  assert (Hc12 : (c ∉ L1) ∧ (c ∉ L2)).
  { revert Hc. rewrite elem_of_app, elem_of_cons. tauto. }
  destruct Hc12 as [Hc1 Hc2].
  assert (HL2 : t ∉ L2).
  { apply NoDup_app in Hnd as (_ & _ & Hnd2). by apply NoDup_cons in Hnd2 as [? _]. }
  rewrite (insert_after_eval c t), (insert_before_eval c t) by sibling_side.
  sibling_norm.
  rewrite !(insert_before_eval t c) by sibling_side.
  sibling_norm. done.
Qed.

(** The three relocations of swap mode, on a sequence given by its pieces. *)
Lemma swap_in_order a b c d p C X Y Z W :
  let l := X ++ a :: Y ++ b :: Z ++ c :: W in
  NoDup l -> d ∈ [a; b; c] -> p ∈ [a; b; c] -> C ∈ [a; b; c] ->
  d <> p -> C <> d -> C <> p ->
  let l3 := insert_before d p (insert_before C d (insert_after p C l)) in
  detach p l3 = exchange d C (detach p l) ∧ nextSibling l3 d = Some p.
Proof.
  intros l Hnd Hd Hp HC Hdp HCd HCp l3. subst l l3.
  apply NoDup_in_order in Hnd
    as ((?&?&?) & (?&?&?) & (?&?&?) & (?&?&?) & Hab & Hac & Hbc).
  rewrite !elem_of_cons, elem_of_nil in Hd, Hp, HC.
  destruct Hd as [->|[->|[->|[]]]]; destruct Hp as [->|[->|[->|[]]]]; try done;
    destruct HC as [->|[->|[->|[]]]]; try done.
  all: rewrite (insert_after_eval _ _ (X ++ _)) by sibling_side; sibling_norm.
  all: rewrite (insert_before_eval _ _ (X ++ _)) by sibling_side; sibling_norm.
  all: rewrite (insert_before_eval _ _ (X ++ _)) by sibling_side; sibling_norm.
  all: done.
Qed.

Ltac by_order H :=
  destruct H as [H|[H|[H|[H|[H|H]]]]]; destruct H as (X & Y & Z & W & ->).

Ltac pick_members :=
  rewrite ?elem_of_cons; auto 10.

(** Swap mode, on any sequence: the dragged item [d] and the candidate [C]
    trade places among the siblings other than the placeholder [p], and
    [p] ends up right behind [d]. *)
Lemma swap_relocations d p C l :
  NoDup l -> d ∈ l -> p ∈ l -> C ∈ l -> d <> p -> C <> d -> C <> p ->
  let l3 := insert_before d p (insert_before C d (insert_after p C l)) in
  detach p l3 = exchange d C (detach p l) ∧ nextSibling l3 d = Some p.
Proof.
  intros Hnd Hd Hp HC Hdp HCd HCp.
  assert (Hord := split_three d p C l Hdp (not_eq_sym HCd) (not_eq_sym HCp) Hd Hp HC).
  by_order Hord; eapply swap_in_order; try done; pick_members.
Qed.

(** Reorder mode, placeholder put in front of the candidate. *)
Lemma reorder_before_in_order a b c d p C X Y Z W :
  let l := X ++ a :: Y ++ b :: Z ++ c :: W in
  NoDup l -> d ∈ [a; b; c] -> p ∈ [a; b; c] -> C ∈ [a; b; c] ->
  d <> p -> C <> d -> C <> p ->
  let l2 := insert_before d p (insert_before p C l) in
  nextSibling l2 d = Some p ∧ nextSibling l2 p = Some C ∧
  detach p l2 = place_before d C (detach d (detach p l)).
Proof.
  intros l Hnd Hd Hp HC Hdp HCd HCp l2. subst l l2.
  apply NoDup_in_order in Hnd
    as ((?&?&?) & (?&?&?) & (?&?&?) & (?&?&?) & Hab & Hac & Hbc).
  rewrite !elem_of_cons, elem_of_nil in Hd, Hp, HC.
  destruct Hd as [->|[->|[->|[]]]]; destruct Hp as [->|[->|[->|[]]]]; try done;
    destruct HC as [->|[->|[->|[]]]]; try done.
  all: rewrite (insert_before_eval _ _ (X ++ _)) by sibling_side; sibling_norm.
  all: rewrite (insert_before_eval _ _ (X ++ _)) by sibling_side; sibling_norm.
  all: done.
Qed.

Lemma reorder_before_relocations d p C l :
  NoDup l -> d ∈ l -> p ∈ l -> C ∈ l -> d <> p -> C <> d -> C <> p ->
  let l2 := insert_before d p (insert_before p C l) in
  nextSibling l2 d = Some p ∧ nextSibling l2 p = Some C ∧
  detach p l2 = place_before d C (detach d (detach p l)).
Proof.
  intros Hnd Hd Hp HC Hdp HCd HCp.
  assert (Hord := split_three d p C l Hdp (not_eq_sym HCd) (not_eq_sym HCp) Hd Hp HC).
  by_order Hord; eapply reorder_before_in_order; try done; pick_members.
Qed.

(** Reorder mode, placeholder put behind the candidate. *)
Lemma reorder_after_in_order a b c d p C X Y Z W :
  let l := X ++ a :: Y ++ b :: Z ++ c :: W in
  NoDup l -> d ∈ [a; b; c] -> p ∈ [a; b; c] -> C ∈ [a; b; c] ->
  d <> p -> C <> d -> C <> p ->
  let l2 := insert_before d p (insert_after p C l) in
  nextSibling l2 C = Some d ∧ nextSibling l2 d = Some p ∧
  nextSibling l2 p <> Some C ∧
  detach p l2 = place_after d C (detach d (detach p l)).
Proof.
  intros l Hnd Hd Hp HC Hdp HCd HCp l2. subst l l2.
  apply NoDup_in_order in Hnd
    as ((?&?&?) & (?&?&?) & (?&?&?) & (?&?&?) & Hab & Hac & Hbc).
  rewrite !elem_of_cons, elem_of_nil in Hd, Hp, HC.
  destruct Hd as [->|[->|[->|[]]]]; destruct Hp as [->|[->|[->|[]]]]; try done;
    destruct HC as [->|[->|[->|[]]]]; try done.
  all: rewrite (insert_after_eval _ _ (X ++ _)) by sibling_side; sibling_norm.
  all: rewrite (insert_before_eval _ _ (X ++ _)) by sibling_side; sibling_norm.
  all: repeat split; try done.
  all: intros Hh%head_Some_elem_of; revert Hh; rewrite ?elem_of_app; tauto.
Qed.

Lemma reorder_after_relocations d p C l :
  NoDup l -> d ∈ l -> p ∈ l -> C ∈ l -> d <> p -> C <> d -> C <> p ->
  let l2 := insert_before d p (insert_after p C l) in
  nextSibling l2 C = Some d ∧ nextSibling l2 d = Some p ∧
  nextSibling l2 p <> Some C ∧
  detach p l2 = place_after d C (detach d (detach p l)).
Proof.
  intros Hnd Hd Hp HC Hdp HCd HCp.
  assert (Hord := split_three d p C l Hdp (not_eq_sym HCd) (not_eq_sym HCp) Hd Hp HC).
  by_order Hord; eapply reorder_after_in_order; try done; pick_members.
Qed.
(** *** Relocations as permutations *)

Lemma detach_perm n l : NoDup l -> n ∈ l -> l ≡ₚ n :: detach n l.
Proof.
  intros Hnd Hn. apply list_elem_of_split_l in Hn as (L1 & L2 & -> & HL1).
  assert (HL2 : n ∉ L2).
  { apply NoDup_app in Hnd as (_ & _ & Hnd2). by apply NoDup_cons in Hnd2 as [? _]. }
  sibling_norm. symmetry. apply Permutation_middle.
Qed.

Lemma insert_before_perm n t l : NoDup l -> n ∈ l -> insert_before n t l ≡ₚ l.
Proof.
  intros Hnd Hn. unfold insert_before.
  destruct (decide (t ∈ l)) as [Ht|]; [|done].
  destruct (decide (n = t)) as [|Hne]; [done|].
  destruct (insert_before_split n t l Ht Hne) as (L1 & L2 & Hd & Hi & _).
  rewrite <- insert_before_eval, Hi by done.
  rewrite (detach_perm n l Hnd Hn), Hd. symmetry. apply Permutation_middle.
Qed.

Lemma insert_after_perm n t l : NoDup l -> n ∈ l -> insert_after n t l ≡ₚ l.
Proof.
  intros Hnd Hn. unfold insert_after.
  destruct (decide (t ∈ l)) as [Ht|]; [|done].
  destruct (decide (n = t)) as [|Hne]; [done|].
  destruct (insert_after_split n t l Ht Hne) as (L1 & L2 & Hd & Hi & _).
  rewrite <- insert_after_eval, Hi by done.
  rewrite (detach_perm n l Hnd Hn), Hd. symmetry.
  etransitivity; [apply Permutation_middle|].
  apply Permutation_app_head, perm_swap.
Qed.

Lemma detach_Permutation x l l' : l ≡ₚ l' -> detach x l ≡ₚ detach x l'.
Proof. intros Hp. unfold detach. by rewrite Hp. Qed.

Lemma elem_of_place_after n t x l : x ∈ l -> x ∈ place_after n t l.
Proof.
  induction l as [|y l IH]; simpl; [done|].
  destruct (decide (y = t)); rewrite !elem_of_cons; tauto.
Qed.

(** *** A placeholder right behind its item *)

Lemma nextSibling_Some_split l x y :
  nextSibling l x = Some y -> exists L1 L2, l = L1 ++ x :: y :: L2 ∧ x ∉ L1.
Proof.
  induction l as [|z l IH]; [done|]. simpl.
  destruct (decide (z = x)) as [->|Hne].
  - destruct l as [|w l]; [done|]. intros [= ->].
    exists [], l. split; [done|]. apply not_elem_of_nil.
  - intros (L1 & L2 & -> & HL1)%IH. exists (z :: L1), L2.
    split; [done|]. rewrite not_elem_of_cons. split; [congruence|done].
Qed.

(** Moving an element to in front of the sibling it already precedes
    changes nothing. *)
Lemma insert_before_already n t l :
  NoDup l -> nextSibling l n = Some t -> insert_before n t l = l.
Proof.
  intros Hnd (L1 & L2 & -> & HL1)%nextSibling_Some_split.
  rewrite NoDup_app, !NoDup_cons in Hnd.
  destruct Hnd as (_ & HL & Hn & Ht2 & _).
  rewrite not_elem_of_cons in Hn. destruct Hn as [Hnt Hn2].
  assert (Ht1 : t ∉ L1).
  { intros Hin. apply (HL t Hin). rewrite !elem_of_cons. tauto. }
  rewrite insert_before_eval by sibling_side.
  sibling_norm. done.
Qed.

(** The tree is its items with the placeholder put behind the dragged item. *)
Lemma place_after_detach p d l :
  NoDup l -> nextSibling l d = Some p -> l = place_after p d (detach p l).
Proof.
  intros Hnd (L1 & L2 & -> & HL1)%nextSibling_Some_split.
  rewrite NoDup_app, !NoDup_cons in Hnd.
  destruct Hnd as (_ & HL & Hn & Hp2 & _).
  rewrite not_elem_of_cons in Hn. destruct Hn as [Hdp Hn2].
  assert (Hpd : p <> d) by congruence.
  assert (Hp1 : p ∉ L1).
  { intros Hin. apply (HL p Hin). rewrite !elem_of_cons. tauto. }
  sibling_norm. done.
Qed.

Lemma detach_place_after c t l : c ∉ l -> detach c (place_after c t l) = l.
Proof.
  induction l as [|y l IH]; intros Hc; [done|].
  apply not_elem_of_cons in Hc as [Hcy Hcl]. simpl.
  destruct (decide (y = t)) as [->|Hne].
  - rewrite detach_cons_ne, detach_cons_eq by congruence.
    by rewrite detach_absent.
  - rewrite detach_cons_ne by congruence. by rewrite IH.
Qed.

Lemma nextSibling_place_after c t l :
  t ∈ l -> nextSibling (place_after c t l) t = Some c.
Proof.
  induction l as [|y l IH]; intros Ht; [by apply elem_of_nil in Ht|]. simpl.
  destruct (decide (y = t)) as [->|Hne].
  - by rewrite nextSibling_here.
  - rewrite nextSibling_cons_ne by done. apply IH.
    apply elem_of_cons in Ht as [?|?]; [congruence|done].
Qed.

Lemma exchange_involutive a b l : exchange a b (exchange a b l) = l.
Proof.
  unfold exchange. rewrite <- list_fmap_compose.
  rewrite <- (list_fmap_id l) at 2. apply list_fmap_ext. intros _ x _. simpl.
  destruct (decide (x = a)) as [->|Ha].
  - destruct (decide (b = a)) as [->|Hba]; [done|].
    by destruct (decide (b = b)).
  - destruct (decide (x = b)) as [->|Hb].
    + by destruct (decide (a = a)).
    + destruct (decide (x = a)); [done|]. by destruct (decide (x = b)).
Qed.

End RelocationFacts.

(** ** The gesture *)

Section ComponentFacts.
Variable offset : Document -> Element -> Z * Z.
Variable matchesSelector : Document -> Element -> string -> bool.

Implicit Types (s : State) (d p C elem : Element) (ev : Event).

(** *** What the methods leave alone *)

Lemma self_addMovingClasses s : self (_addMovingClasses s) = self s.
Proof. reflexivity. Qed.

Lemma self_removeMovingClasses s : self (_removeMovingClasses s) = self s.
Proof.
  unfold _removeMovingClasses.
  by destruct (_isMoving (self s)), (_placeholder (self s)).
Qed.

Lemma childNodes_removeMovingClasses s :
  childNodes (document (_removeMovingClasses s)) = childNodes (document s).
Proof.
  unfold _removeMovingClasses.
  by destruct (_isMoving (self s)), (_placeholder (self s)).
Qed.

Lemma self_movePlaceholder C s : self (_movePlaceholder offset C s) = self s.
Proof.
  unfold _movePlaceholder.
  destruct (_placeholder (self s)); [|done].
  destruct (swap (options s)); [done|].
  by destruct (_ || _).
Qed.

Lemma self_stopMoving s :
  self (stopMoving s) = mkSortableList (_options (self s)) None None.
Proof.
  unfold stopMoving. cbn [self with_document].
  by rewrite self_removeMovingClasses.
Qed.

Lemma idle_stopMoving s : idle (stopMoving s).
Proof. by split. Qed.

Lemma childNodes_stopMoving s :
  childNodes (document (stopMoving s)) =
  match _placeholder (self s) with
  | Some p => detach p (childNodes (document s))
  | None => childNodes (document s)
  end.
Proof.
  unfold stopMoving, _removeMovingClasses.
  destruct (_isMoving (self s)); destruct (_placeholder (self s)) eqn:Hp;
    simpl; rewrite ?Hp; reflexivity.
Qed.

(** The class names [stopMoving] leaves: those of before, less the three
    markers of the gesture. *)
Lemma classNames_stopMoving s :
  classNames (document (stopMoving s)) =
  ((classNames (document s)
     ∖ (match _isMoving (self s) with
        | Some m => {[ (m, draggedClass (options s)) ]}
        | None => ∅
        end))
     ∖ (match _placeholder (self s) with
        | Some p => {[ (p, placeholderClass (options s)) ]}
        | None => ∅
        end))
     ∖ {[ (documentElement, draggingClass (options s)) ]}.
Proof.
  unfold stopMoving, _removeMovingClasses.
  destruct (_isMoving (self s)); destruct (_placeholder (self s)) eqn:Hp;
    simpl; rewrite ?Hp, ?difference_empty_L; reflexivity.
Qed.

Lemma unmarked_stopMoving s d p :
  dragging d p s ->
  ¬ marked d (draggedClass (options s)) (stopMoving s) ∧
  ¬ marked p (placeholderClass (options s)) (stopMoving s) ∧
  ¬ marked documentElement (draggingClass (options s)) (stopMoving s).
Proof.
  intros [Hd Hp]. unfold marked. rewrite classNames_stopMoving, Hd, Hp.
  rewrite !elem_of_difference, !elem_of_singleton. intuition congruence.
Qed.

(** *** The session fields *)

(** C5. The two session fields are both set or both absent: this holds for a
    new instance, and every operation of the component (the pointer-down,
    pointer-move and pointer-up handlers, the mouse-leave handler,
    [stopMoving] and [validateMove]) takes a state where it holds to one
    where it holds. *)
Theorem session_invariant :
  (forall opts doc, session_ok (initial opts doc)) ∧
  (forall a s, session_ok s -> session_ok (step offset matchesSelector a s)).
Proof.
  split.
  - intros opts doc. unfold session_ok. simpl. split; intros [? [=]].
  - assert (Hstop : forall s, session_ok (stopMoving s)).
    { intros s. unfold session_ok. rewrite self_stopMoving. simpl.
      split; intros [? [=]]. }
    assert (Hmove : forall elem s, session_ok s ->
              session_ok (validateMove offset matchesSelector elem s)).
    { intros elem s Hs. unfold validateMove.
      destruct (_isMoving (self s)) as [m|] eqn:Hm; [|done].
      destruct (_placeholder (self s)) as [q|] eqn:Hq; [|done].
      destruct (decide (elem = q)); [done|].
      destruct (decide (elem = m)); [done|].
      destruct (moveAccepted _ _ _); [|apply Hstop].
      unfold session_ok. by rewrite self_movePlaceholder. }
    intros a s Hs. destruct a as [ev|ev|ev| | |elem]; simpl.
    + unfold _onDown.
      destruct (_isMoving (self s)) as [m|] eqn:Hm; [done|].
      destruct (_placeholder (self s)) as [q|] eqn:Hq; [done|].
      destruct (handleRejects _ _ _); [done|].
      unfold session_ok, cloneNode. cbv beta iota zeta.
      rewrite self_addMovingClasses, self_movePlaceholder. simpl.
      split; intros _; eauto.
    + by apply Hmove.
    + unfold _onUp.
      destruct (_isMoving (self s)) as [m|] eqn:Hm; [|done].
      destruct (_placeholder (self s)) as [q|] eqn:Hq; [|done].
      destruct (decide (currentTarget ev = m)); [done|].
      destruct (decide (currentTarget ev = q)); [done|].
      apply Hstop.
    + destruct (cancelMouseOut (options s)); [apply Hstop|done].
    + apply Hstop.
    + by apply Hmove.
Qed.

(** C6. [validateMove] changes nothing, neither the session fields nor the
    document, when its candidate is the dragged item or the placeholder, and
    when no gesture is going on (one of the two fields is absent). *)
Theorem validateMove_no_op s elem :
  _isMoving (self s) = Some elem ∨ _placeholder (self s) = Some elem ∨
  _isMoving (self s) = None ∨ _placeholder (self s) = None ->
  validateMove offset matchesSelector elem s = s.
Proof.
  intros Hcase. unfold validateMove.
  destruct (_isMoving (self s)) as [m|]; [|done].
  destruct (_placeholder (self s)) as [q|]; [|done].
  destruct (decide (elem = q)); [done|].
  destruct (decide (elem = m)); [done|].
  destruct Hcase as [[=]|[[=]|[[=]|[=]]]]; congruence.
Qed.

(** C7. [stopMoving] is idempotent: a second call in a row changes nothing
    more.  It always leaves both session fields absent.  Called when no
    gesture is going on, all it does is take the dragging class name off
    the root element; the tree is as it was. *)
Theorem stopMoving_idempotent s :
  stopMoving (stopMoving s) = stopMoving s ∧
  idle (stopMoving s) ∧
  (idle s ->
     stopMoving s =
       with_document
         (Css_removeClassName (Some documentElement) (draggingClass (options s))) s ∧
     childNodes (document (stopMoving s)) = childNodes (document s)).
Proof.
  split; [|split].
  - destruct s as [[o m q] [l c k]].
    unfold stopMoving, _removeMovingClasses, with_document, options.
    destruct m, q; simpl; unfold with_classNames, with_childNodes; simpl;
      rewrite ?detach_detach, difference_twice_L; reflexivity.
  - apply idle_stopMoving.
  - intros [Hm Hq]. destruct s as [[o m q] doc]. simpl in Hm, Hq. subst m q.
    by split.
Qed.

(** C9. A pointer-down changes nothing, neither the session fields nor the
    document, when a session field is already set, so that a pointer-down
    during a drag starts no second gesture; and it changes nothing when a
    (non-empty) [handleSelector] is set that the event's target does not
    match. *)
Theorem onDown_ignored s ev :
  is_Some (_isMoving (self s)) ∨ is_Some (_placeholder (self s)) ∨
  (exists sel, handleSelector (options s) = Some sel ∧ sel <> EmptyString ∧
               matchesSelector (document s) (target ev) sel = false) ->
  _onDown offset matchesSelector ev s = s.
Proof.
  intros Hcase. unfold _onDown.
  destruct (_isMoving (self s)) as [m|]; [done|].
  destruct (_placeholder (self s)) as [q|]; [done|].
  destruct Hcase as [[? [=]]|[[? [=]]|(sel & Hsel & Hne & Hmatch)]].
  unfold handleRejects, truthy. rewrite Hsel.
  destruct (decide (sel = EmptyString)); [done|]. by rewrite Hmatch.
Qed.


(** *** The placement decision *)

Lemma childNodes_insertBefore n t (doc : Document) :
  childNodes (Element_insertBefore (Some n) (Some t) doc) =
  insert_before n t (childNodes doc).
Proof. reflexivity. Qed.

Lemma childNodes_insertAfter n t (doc : Document) :
  childNodes (Element_insertAfter (Some n) (Some t) doc) =
  insert_after n t (childNodes doc).
Proof. reflexivity. Qed.

(** The test the code makes in reorder mode is the rule of section 4.2. *)
Lemma goes_before_code C p s :
  ((offset (document s) C).2 >? (offset (document s) p).2) &&
  ((offset (document s) C).1 >? (offset (document s) p).1)
  || negb ((offset (document s) C).2 >? (offset (document s) p).2) &&
     negb ((offset (document s) C).1 >? (offset (document s) p).1) =
  goes_before offset C p s.
Proof. unfold goes_before. by destruct (_ >? _), (_ >? _). Qed.

(** [_movePlaceholder] with both session fields set, on a candidate of the
    tree: every sibling stays in the tree, the placeholder is in it
    afterwards, and no element is listed twice. *)
Lemma movePlaceholder_tree s d p C :
  _isMoving (self s) = Some d -> _placeholder (self s) = Some p ->
  NoDup (childNodes (document s)) -> C ∈ childNodes (document s) ->
  let l' := childNodes (document (_movePlaceholder offset C s)) in
  NoDup l' ∧ p ∈ l' ∧ (forall x, x ∈ childNodes (document s) -> x ∈ l') ∧
  (forall x, x ∈ l' -> x = d ∨ x = p ∨ x ∈ childNodes (document s)).
Proof.
  intros Hm Hq Hnd HC l'. subst l'. unfold _movePlaceholder. rewrite Hq, Hm.
  destruct (swap (options s)); [|destruct (_ || _)]; cbn [document with_document];
    rewrite !childNodes_insertBefore, ?childNodes_insertAfter.
  - split; [by do 2 apply NoDup_insert_before; apply NoDup_insert_after|].
    split; [by do 2 apply elem_of_insert_before; apply insert_after_enters|].
    split.
    + intros x Hx. by do 2 apply elem_of_insert_before; apply elem_of_insert_after.
    + intros x Hx.
      apply elem_of_insert_before_inv in Hx as [->|Hx]; [tauto|].
      apply elem_of_insert_before_inv in Hx as [->|Hx]; [tauto|].
      apply elem_of_insert_after_inv in Hx. tauto.
  - split; [by do 2 apply NoDup_insert_before|].
    split; [by apply elem_of_insert_before, insert_before_enters|].
    split.
    + intros x Hx. by do 2 apply elem_of_insert_before.
    + intros x Hx.
      apply elem_of_insert_before_inv in Hx as [->|Hx]; [tauto|].
      apply elem_of_insert_before_inv in Hx. tauto.
  - split; [by apply NoDup_insert_before, NoDup_insert_after|].
    split; [by apply elem_of_insert_before, insert_after_enters|].
    split.
    + intros x Hx. by apply elem_of_insert_before, elem_of_insert_after.
    + intros x Hx.
      apply elem_of_insert_before_inv in Hx as [->|Hx]; [tauto|].
      apply elem_of_insert_after_inv in Hx. tauto.
Qed.

(** A placement keeps an active session in the tree. *)
Lemma movePlaceholder_attached s d p C :
  attached d p s -> C ∈ childNodes (document s) ->
  attached d p (_movePlaceholder offset C s).
Proof.
  intros ((Hm & Hq) & Hdp & Hnd & Hd & Hp) HC.
  destruct (movePlaceholder_tree s d p C Hm Hq Hnd HC) as (Hnd' & Hp' & Hkeep & _).
  unfold attached, dragging. rewrite self_movePlaceholder. auto 10.
Qed.

(** C10. Whenever [_movePlaceholder] runs with both session fields set and
    the dragged item in the tree, on a candidate of the tree other than the
    placeholder, the dragged item ends up right in front of the placeholder,
    in swap mode as in reorder mode. *)
Theorem movePlaceholder_adjacent s d p C :
  _isMoving (self s) = Some d -> _placeholder (self s) = Some p -> d <> p ->
  NoDup (childNodes (document s)) -> d ∈ childNodes (document s) ->
  C ∈ childNodes (document s) -> C <> p ->
  nextSibling (childNodes (document (_movePlaceholder offset C s))) d = Some p.
Proof.
  intros Hm Hq Hdp Hnd Hd HC HCp. unfold _movePlaceholder. rewrite Hq, Hm.
  destruct (swap (options s)).
  - cbn [document with_document]. rewrite !childNodes_insertBefore, childNodes_insertAfter.
    apply insert_before_adjacent; [|by apply elem_of_insert_before, insert_after_enters|done].
    by apply NoDup_insert_before, NoDup_insert_after.
  - destruct (_ || _); cbn [document with_document];
      rewrite !childNodes_insertBefore, ?childNodes_insertAfter.
    + apply insert_before_adjacent; [|by apply insert_before_enters|done].
      by apply NoDup_insert_before.
    + apply insert_before_adjacent; [|by apply insert_after_enters|done].
      by apply NoDup_insert_after.
Qed.

(** C1. In reorder mode, for an active session and a candidate [C] of the
    tree other than the dragged item [d] and the placeholder [p],
    [_movePlaceholder] inserts [p] before [C] when
    [(C.x > p.x) == (C.y > p.y)] (equal offsets included) and after [C]
    otherwise, and then, in every case, moves [d] to right in front of [p].
    In the resulting tree [d] is followed by [p]; [p] is followed by [C]
    exactly in the first case, and in the second [C] is followed by [d]. *)
Theorem reorder_placement s d p C :
  swap (options s) = false -> attached d p s ->
  C ∈ childNodes (document s) -> C <> d -> C <> p ->
  let before := goes_before offset C p s in
  let s' := _movePlaceholder offset C s in
  let l' := childNodes (document s') in
  s' = with_document (Element_insertBefore (Some d) (Some p))
         (with_document
            (if before then Element_insertBefore (Some p) (Some C)
             else Element_insertAfter (Some p) (Some C)) s) ∧
  nextSibling l' d = Some p ∧
  (nextSibling l' p = Some C <-> before = true) ∧
  (before = false -> nextSibling l' C = Some d).
Proof.
  intros Hswap ((Hm & Hq) & Hdp & Hnd & Hd & Hp) HC HCd HCp before s' l'.
  assert (Hs' : s' = with_document (Element_insertBefore (Some d) (Some p))
           (with_document
              (if before then Element_insertBefore (Some p) (Some C)
               else Element_insertAfter (Some p) (Some C)) s)).
  { subst s' before. unfold _movePlaceholder. rewrite Hq, Hswap, Hm.
    cbv zeta. rewrite goes_before_code. by destruct (goes_before _ _ _ _). }
  split; [done|]. subst l'. rewrite Hs'. clear Hs'.
  destruct before; cbn [document with_document];
    rewrite !childNodes_insertBefore, ?childNodes_insertAfter.
  - destruct (reorder_before_relocations d p C _ Hnd Hd Hp HC Hdp HCd HCp)
      as (Hdp' & HpC & _).
    by repeat split.
  - destruct (reorder_after_relocations d p C _ Hnd Hd Hp HC Hdp HCd HCp)
      as (HCd' & Hdp' & HpC & _).
    repeat split; done.
Qed.

(** C2, as amended. In swap mode, for an active session and a candidate [C]
    of the tree other than the dragged item [d] and the placeholder [p],
    [_movePlaceholder] makes exactly three relocations: [p] to right behind
    [C], then [C] to right in front of [d], then [d] to right in front of
    [p].  Among the siblings other than the placeholder, [C] and [d] trade
    places and nothing else moves; the placeholder is left right behind the
    dragged item. *)
Theorem swap_placement s d p C :
  swap (options s) = true -> attached d p s ->
  C ∈ childNodes (document s) -> C <> d -> C <> p ->
  let s' := _movePlaceholder offset C s in
  let l := childNodes (document s) in
  let l' := childNodes (document s') in
  s' = with_document (Element_insertBefore (Some d) (Some p))
         (with_document (Element_insertBefore (Some C) (Some d))
            (with_document (Element_insertAfter (Some p) (Some C)) s)) ∧
  detach p l' = exchange d C (detach p l) ∧
  nextSibling l' d = Some p.
Proof.
  intros Hswap ((Hm & Hq) & Hdp & Hnd & Hd & Hp) HC HCd HCp s' l l'.
  assert (Hs' : s' = with_document (Element_insertBefore (Some d) (Some p))
           (with_document (Element_insertBefore (Some C) (Some d))
              (with_document (Element_insertAfter (Some p) (Some C)) s))).
  { subst s'. unfold _movePlaceholder. by rewrite Hq, Hswap, Hm. }
  split; [done|]. subst l l'. rewrite Hs'. clear Hs'.
  cbn [document with_document].
  rewrite !childNodes_insertBefore, childNodes_insertAfter.
  by apply swap_relocations.
Qed.

(** *** Cancel, commit, and starting again *)

(** A pointer-down in the Idle state that the handle guard lets through
    starts a session: the pressed item is the dragged item, and its clone,
    the next new element, is the placeholder. *)
Lemma onDown_starts s ev :
  idle s -> handleRejects matchesSelector ev s = false ->
  dragging (currentTarget ev) (node (allocated (document s)))
           (_onDown offset matchesSelector ev s).
Proof.
  intros [Hm Hq] Hh. unfold _onDown. rewrite Hm, Hq, Hh.
  unfold cloneNode, dragging. cbv beta iota zeta.
  by rewrite self_addMovingClasses, self_movePlaceholder.
Qed.

(** Pressed on an item of a tree that lists no element twice and holds none
    of the handles still to be given out, such a pointer-down leaves the
    dragged item and the placeholder in the tree, the placeholder right
    behind the item. *)
Lemma onDown_attaches s ev :
  idle s -> handleRejects matchesSelector ev s = false ->
  NoDup (childNodes (document s)) ->
  currentTarget ev ∈ childNodes (document s) ->
  node (allocated (document s)) ∉ childNodes (document s) ->
  let s' := _onDown offset matchesSelector ev s in
  attached (currentTarget ev) (node (allocated (document s))) s' ∧
  childNodes (document s') =
    place_after (node (allocated (document s))) (currentTarget ev)
      (childNodes (document s)).
Proof.
  intros Hidle Hh Hnd Ht Hfresh s'.
  assert (Hdrag := onDown_starts s ev Hidle Hh).
  assert (Hne : currentTarget ev <> node (allocated (document s))) by congruence.
  destruct Hidle as [Hm Hq]. subst s'. revert Hdrag.
  unfold _onDown. rewrite Hm, Hq, Hh. unfold cloneNode. cbv beta iota zeta.
  set (s1 := mkState _ _). intros Hdrag.
  assert (Hm1 : _isMoving (self s1) = Some (currentTarget ev)) by done.
  assert (Hq1 : _placeholder (self s1) = Some (node (allocated (document s)))) by done.
  assert (Hl : childNodes (document (_addMovingClasses (_movePlaceholder offset (currentTarget ev) s1))) =
               childNodes (document (_movePlaceholder offset (currentTarget ev) s1))).
  { unfold _addMovingClasses. rewrite self_movePlaceholder, Hm1, Hq1. done. }
  destruct (movePlaceholder_tree s1 _ _ (currentTarget ev) Hm1 Hq1 Hnd Ht)
    as (Hnd' & Hp' & Hkeep & _).
  split.
  - unfold attached. rewrite Hl. split; [done|]. split; [done|].
    split; [done|]. split; [by apply Hkeep|done].
  - rewrite Hl. unfold _movePlaceholder. rewrite Hq1, Hm1.
    destruct (first_placement (currentTarget ev) (node (allocated (document s)))
                (childNodes (document s)) Hnd Ht Hfresh) as (Hswap & Hbefore & Hafter).
    destruct (swap (options s1)); [|destruct (_ || _)]; cbn [document with_document];
      rewrite !childNodes_insertBefore, ?childNodes_insertAfter; done.
Qed.

(** C3. In an active session with a (non-empty) [moveSelector] set,
    [validateMove] on a candidate other than the dragged item and the
    placeholder that does not match the selector cancels the gesture: it
    does what [stopMoving] does.  The three markers are taken off, both
    session fields are cleared, and the siblings are those of before in the
    order of before, less the placeholder.  A pointer-down that passes the
    handle guard then starts a new session. *)
Theorem validateMove_cancels s d p C sel :
  dragging d p s ->
  moveSelector (options s) = Some sel -> sel <> EmptyString ->
  matchesSelector (document s) C sel = false ->
  C <> d -> C <> p ->
  let s' := validateMove offset matchesSelector C s in
  s' = stopMoving s ∧
  idle s' ∧
  childNodes (document s') = detach p (childNodes (document s)) ∧
  (¬ marked d (draggedClass (options s)) s' ∧
   ¬ marked p (placeholderClass (options s)) s' ∧
   ¬ marked documentElement (draggingClass (options s)) s') ∧
  (forall ev, handleRejects matchesSelector ev s' = false ->
     dragging (currentTarget ev) (node (allocated (document s')))
              (_onDown offset matchesSelector ev s')).
Proof.
  intros Hdrag Hsel Hne Hmatch HCd HCp s'.
  assert (Hs' : s' = stopMoving s).
  { subst s'. destruct Hdrag as [Hm Hq]. unfold validateMove. rewrite Hm, Hq.
    destruct (decide (C = p)); [done|]. destruct (decide (C = d)); [done|].
    unfold moveAccepted, truthy. rewrite Hsel.
    destruct (decide (sel = EmptyString)); [done|]. by rewrite Hmatch. }
  rewrite Hs'. split; [done|]. split; [apply idle_stopMoving|].
  split; [|split].
  - rewrite childNodes_stopMoving. by destruct Hdrag as [_ ->].
  - by apply unmarked_stopMoving.
  - intros ev Hh. apply onDown_starts; [apply idle_stopMoving|done].
Qed.

(** C4. A pointer-up in an active session whose target is neither the dragged
    item [d] nor the placeholder [p] commits: [d] is moved to right in front
    of [p], and then [stopMoving] runs, which takes the three markers off,
    removes [p] from the tree and clears both session fields. *)
Theorem onUp_commits s d p ev :
  dragging d p s -> currentTarget ev <> d -> currentTarget ev <> p ->
  let s' := _onUp ev s in
  s' = stopMoving (with_document (Element_insertBefore (Some d) (Some p)) s) ∧
  idle s' ∧
  childNodes (document s') =
    detach p (insert_before d p (childNodes (document s))) ∧
  (p ∉ childNodes (document s')) ∧
  (¬ marked d (draggedClass (options s)) s' ∧
   ¬ marked p (placeholderClass (options s)) s' ∧
   ¬ marked documentElement (draggingClass (options s)) s').
Proof.
  intros Hdrag Hd Hp s'.
  assert (Hs' : s' = stopMoving (with_document (Element_insertBefore (Some d) (Some p)) s)).
  { subst s'. destruct Hdrag as [Hm Hq]. unfold _onUp. rewrite Hm, Hq.
    destruct (decide (currentTarget ev = d)); [done|].
    by destruct (decide (currentTarget ev = p)). }
  rewrite Hs'. split; [done|]. split; [apply idle_stopMoving|].
  assert (Hl : childNodes (document (stopMoving
             (with_document (Element_insertBefore (Some d) (Some p)) s))) =
           detach p (insert_before d p (childNodes (document s)))).
  { rewrite childNodes_stopMoving. cbn [self with_document].
    by destruct Hdrag as [_ ->]. }
  split; [done|]. split.
  - rewrite Hl, elem_of_detach. tauto.
  - by apply (unmarked_stopMoving
                (with_document (Element_insertBefore (Some d) (Some p)) s)).
Qed.

(** *** The states the component reaches *)

Lemma allocated_stopMoving s :
  allocated (document (stopMoving s)) = allocated (document s).
Proof.
  unfold stopMoving, _removeMovingClasses.
  destruct (_isMoving (self s)); destruct (_placeholder (self s)) eqn:Hp;
    simpl; rewrite ?Hp; reflexivity.
Qed.

Lemma allocated_movePlaceholder C s :
  allocated (document (_movePlaceholder offset C s)) = allocated (document s).
Proof.
  unfold _movePlaceholder.
  destruct (_placeholder (self s)); [|done].
  destruct (_isMoving (self s)), (swap (options s)); try done;
    by destruct (_ || _).
Qed.

Lemma stopMoving_well_formed s :
  NoDup (childNodes (document s)) ->
  (forall n, node n ∈ childNodes (document s) -> (n < allocated (document s))%nat) ->
  well_formed (stopMoving s).
Proof.
  intros Hnd Hbound. unfold well_formed.
  rewrite childNodes_stopMoving, allocated_stopMoving.
  split; [|split].
  - destruct (_placeholder (self s)); [by apply NoDup_detach|done].
  - intros n Hn. apply Hbound.
    destruct (_placeholder (self s)); [|done].
    apply elem_of_detach in Hn. tauto.
  - left. apply idle_stopMoving.
Qed.

Lemma validateMove_well_formed s elem :
  well_formed s -> elem ∈ childNodes (document s) ->
  well_formed (validateMove offset matchesSelector elem s).
Proof.
  intros (Hnd & Hbound & Hsession) Helem.
  assert (Hs : well_formed s) by done.
  unfold validateMove.
  destruct (_isMoving (self s)) as [m|] eqn:Hm; [|done].
  destruct (_placeholder (self s)) as [q|] eqn:Hq; [|done].
  destruct (decide (elem = q)); [done|].
  destruct (decide (elem = m)); [done|].
  destruct (moveAccepted _ _ _); [|by apply stopMoving_well_formed].
  destruct Hsession as [[Hidle _]|(d & p & Hatt)]; [congruence|].
  assert (d = m ∧ p = q) as [-> ->].
  { destruct Hatt as ((Hd & Hp) & _). split; congruence. }
  destruct (movePlaceholder_tree s m q elem Hm Hq Hnd Helem)
    as (Hnd' & _ & _ & Hback).
  unfold well_formed. rewrite allocated_movePlaceholder.
  split; [done|]. split.
  - intros k Hk. apply Hbound.
    destruct Hatt as (_ & _ & _ & Hd & Hp).
    destruct (Hback _ Hk) as [->|[->|?]]; done.
  - right. exists m, q. by apply movePlaceholder_attached.
Qed.

(** Every operation, on what the event system delivers, takes a state the
    component can be in to another such state: in particular, whenever a
    session is active its dragged item and its placeholder are two siblings
    of the tree. *)
Lemma step_well_formed a s :
  well_formed s -> delivered a s ->
  well_formed (step offset matchesSelector a s).
Proof.
  intros Hs Ha. assert (Hs' := Hs). destruct Hs' as (Hnd & Hbound & Hsession).
  destruct a as [ev|ev|ev| | |elem]; simpl in *.
  - destruct (_isMoving (self s)) as [m|] eqn:Hm;
      [by unfold _onDown; rewrite Hm|].
    destruct (_placeholder (self s)) as [q|] eqn:Hq;
      [by unfold _onDown; rewrite Hm, Hq|].
    destruct (handleRejects matchesSelector ev s) eqn:Hh;
      [by unfold _onDown; rewrite Hm, Hq, Hh|].
    assert (Hfresh : node (allocated (document s)) ∉ childNodes (document s)).
    { intros Hin%Hbound. lia. }
    destruct (onDown_attaches s ev (conj Hm Hq) Hh Hnd Ha Hfresh) as (Hatt & Hl).
    split; [|split].
    + by destruct Hatt as (_ & _ & ? & _).
    + rewrite Hl. intros n Hn.
      assert (Hal : allocated (document (_onDown offset matchesSelector ev s)) =
                    S (allocated (document s))).
      { unfold _onDown. rewrite Hm, Hq, Hh. unfold cloneNode. cbv beta iota zeta.
        set (s1 := mkState _ _).
        transitivity (allocated (document (_movePlaceholder offset (currentTarget ev) s1)));
          [|by rewrite allocated_movePlaceholder].
        unfold _addMovingClasses. rewrite self_movePlaceholder. done. }
      rewrite Hal. apply elem_of_place_after_inv in Hn as [[= ->]|Hn]; [lia|].
      apply Hbound in Hn. lia.
    + right. by eexists _, _.
  - by apply validateMove_well_formed.
  - unfold _onUp.
    destruct (_isMoving (self s)) as [m|] eqn:Hm; [|done].
    destruct (_placeholder (self s)) as [q|] eqn:Hq; [|done].
    destruct (decide (currentTarget ev = m)); [done|].
    destruct (decide (currentTarget ev = q)); [done|].
    destruct Hsession as [[Hidle _]|(d & p & Hatt)]; [congruence|].
    destruct Hatt as ((Hd & Hp) & _ & _ & Hdl & Hpl).
    assert (d = m ∧ p = q) as [-> ->] by (split; congruence).
    apply stopMoving_well_formed; cbn [document with_document];
      rewrite childNodes_insertBefore.
    + by apply NoDup_insert_before.
    + intros k Hk. apply Hbound.
      apply elem_of_insert_before_inv in Hk as [->|?]; done.
  - destruct (cancelMouseOut (options s)); [by apply stopMoving_well_formed|done].
  - by apply stopMoving_well_formed.
  - by apply validateMove_well_formed.
Qed.

(** ** Beyond the placement decision: whole gestures *)

(** *** What a placement does to the tree, as list operations *)

Lemma classNames_movePlaceholder C s :
  classNames (document (_movePlaceholder offset C s)) = classNames (document s).
Proof.
  unfold _movePlaceholder.
  destruct (_placeholder (self s)); [|done].
  destruct (_isMoving (self s)), (swap (options s)); try done;
    by destruct (_ || _).
Qed.

Lemma childNodes_movePlaceholder s d p C :
  dragging d p s ->
  childNodes (document (_movePlaceholder offset C s)) =
  if swap (options s) then
    insert_before d p (insert_before C d (insert_after p C (childNodes (document s))))
  else
    insert_before d p
      (if goes_before offset C p s then insert_before p C (childNodes (document s))
       else insert_after p C (childNodes (document s))).
Proof.
  intros [Hm Hq]. unfold _movePlaceholder. rewrite Hq, Hm.
  destruct (swap (options s)); [done|].
  cbv zeta. rewrite goes_before_code. by destruct (goes_before _ _ _ _).
Qed.

Lemma movePlaceholder_follows s d p C :
  dragging d p s -> d <> p -> NoDup (childNodes (document s)) ->
  C ∈ childNodes (document s) ->
  nextSibling (childNodes (document (_movePlaceholder offset C s))) d = Some p.
Proof.
  intros Hdrag Hdp Hnd HC. rewrite (childNodes_movePlaceholder s d p C Hdrag).
  destruct (swap (options s)); [|destruct (goes_before _ _ _ _)].
  - apply insert_before_adjacent; [|by apply elem_of_insert_before, insert_after_enters|done].
    by apply NoDup_insert_before, NoDup_insert_after.
  - apply insert_before_adjacent; [|by apply insert_before_enters|done].
    by apply NoDup_insert_before.
  - apply insert_before_adjacent; [|by apply insert_after_enters|done].
    by apply NoDup_insert_after.
Qed.

Lemma movePlaceholder_perm s d p C :
  attached d p s -> C ∈ childNodes (document s) ->
  childNodes (document (_movePlaceholder offset C s)) ≡ₚ childNodes (document s).
Proof.
  intros (Hdrag & Hdp & Hnd & Hd & Hp) HC.
  rewrite (childNodes_movePlaceholder s d p C Hdrag).
  destruct (swap (options s)); [|destruct (goes_before _ _ _ _)].
  - rewrite insert_before_perm, insert_before_perm, insert_after_perm; try done.
    + by apply NoDup_insert_after.
    + by apply elem_of_insert_after.
    + by apply NoDup_insert_before, NoDup_insert_after.
    + by apply elem_of_insert_before, elem_of_insert_after.
  - rewrite insert_before_perm, insert_before_perm; try done.
    + by apply NoDup_insert_before.
    + by apply elem_of_insert_before.
  - rewrite insert_before_perm, insert_after_perm; try done.
    + by apply NoDup_insert_after.
    + by apply elem_of_insert_after.
Qed.

(** *** Starting a drag *)

(** X1. A pointer-down in the Idle state that passes the handle guard, on an
    item of a tree without duplicates, starts a drag of that item: the
    session fields are the item and its clone, and the clone is put right
    behind the item, with every other sibling where it was, whatever the
    mode and the layout. *)
Theorem onDown_begins_drag s ev :
  idle s -> handleRejects matchesSelector ev s = false ->
  NoDup (childNodes (document s)) ->
  currentTarget ev ∈ childNodes (document s) ->
  node (allocated (document s)) ∉ childNodes (document s) ->
  let c := node (allocated (document s)) in
  let s' := _onDown offset matchesSelector ev s in
  dragging (currentTarget ev) c s' ∧
  childNodes (document s') = place_after c (currentTarget ev) (childNodes (document s)) ∧
  nextSibling (childNodes (document s')) (currentTarget ev) = Some c ∧
  items s' = childNodes (document s).
Proof.
  intros Hidle Hh Hnd Ht Hfresh c s'.
  destruct (onDown_attaches s ev Hidle Hh Hnd Ht Hfresh) as ((Hdrag & _) & Hl).
  fold c in Hdrag, Hl. fold s' in Hdrag, Hl.
  split; [done|]. split; [done|]. split.
  - rewrite Hl. by apply nextSibling_place_after.
  - unfold items. destruct Hdrag as [_ ->]. rewrite Hl.
    by apply detach_place_after.
Qed.

(** X2. Such a pointer-down marks the three elements: the clone carries the
    placeholder class, the pressed item the dragged class and the root
    element the dragging class; and no element loses a class name. *)
Theorem onDown_marks s ev :
  idle s -> handleRejects matchesSelector ev s = false ->
  let c := node (allocated (document s)) in
  let s' := _onDown offset matchesSelector ev s in
  marked c (placeholderClass (options s)) s' ∧
  marked (currentTarget ev) (draggedClass (options s)) s' ∧
  marked documentElement (draggingClass (options s)) s' ∧
  (forall e className, marked e className s -> marked e className s').
Proof.
  intros [Hm Hq] Hh c s'. subst c s'. unfold marked, _onDown.
  rewrite Hm, Hq, Hh. unfold cloneNode. cbv beta iota zeta.
  set (s1 := mkState _ _).
  unfold _addMovingClasses. rewrite !self_movePlaceholder.
  cbn [document with_document self _isMoving _placeholder s1 Css_addClassName
       classNames with_classNames].
  rewrite classNames_movePlaceholder.
  unfold options. rewrite !self_movePlaceholder.
  cbn [document s1 classNames self _options].
  rewrite !elem_of_union, !elem_of_singleton. repeat split; auto 10.
  intros e className He. rewrite !elem_of_union. auto 10.
Qed.

(** X3. Adding the three markers and taking them off again gives back the
    document as it was, when none of the three was set before. *)
Theorem moving_classes_round_trip s d p :
  dragging d p s ->
  ¬ marked p (placeholderClass (options s)) s ->
  ¬ marked d (draggedClass (options s)) s ->
  ¬ marked documentElement (draggingClass (options s)) s ->
  document (_removeMovingClasses (_addMovingClasses s)) = document s.
Proof.
  intros [Hm Hq] Hp Hd Hroot. unfold marked in *.
  unfold _removeMovingClasses, _addMovingClasses.
  cbn [self with_document]. rewrite Hm, Hq.
  destruct s as [o [l cls k]]. unfold options in *.
  cbn [document with_document self Css_addClassName Css_removeClassName
       classNames with_classNames childNodes allocated] in *.
  unfold with_classNames. cbn [classNames childNodes allocated].
  f_equal. apply set_eq. intros x.
  rewrite !elem_of_difference, !elem_of_union, !elem_of_singleton.
  split; [tauto|]. intros Hx. repeat split; [tauto| | |]; congruence.
Qed.

(** X4. A placement only moves siblings: it changes no class name, neither
    session field, and hands out no new element. *)
Theorem movePlaceholder_frame s C :
  self (_movePlaceholder offset C s) = self s ∧
  classNames (document (_movePlaceholder offset C s)) = classNames (document s) ∧
  allocated (document (_movePlaceholder offset C s)) = allocated (document s).
Proof.
  split; [apply self_movePlaceholder|].
  split; [apply classNames_movePlaceholder|apply allocated_movePlaceholder].
Qed.

(** X5. A pointer-up changes nothing when no session is active, and nothing
    when its [currentTarget] is the dragged item or the placeholder: the
    drag then goes on. *)
Theorem onUp_ignored s ev :
  _isMoving (self s) = None ∨ _placeholder (self s) = None ∨
  _isMoving (self s) = Some (currentTarget ev) ∨
  _placeholder (self s) = Some (currentTarget ev) ->
  _onUp ev s = s.
Proof.
  intros Hcase. unfold _onUp.
  destruct (_isMoving (self s)) as [m|]; [|done].
  destruct (_placeholder (self s)) as [q|]; [|done].
  destruct (decide (currentTarget ev = m)); [done|].
  destruct (decide (currentTarget ev = q)); [done|].
  destruct Hcase as [[=]|[[=]|[[=]|[=]]]]; congruence.
Qed.

(** *** Runs of the component *)

Lemma follows_stopMoving s : placeholder_follows (stopMoving s).
Proof. intros d p [Hd _]. by rewrite self_stopMoving in Hd. Qed.

Lemma items_stopMoving s : items (stopMoving s) = items s.
Proof.
  unfold items. rewrite self_stopMoving. cbn [_placeholder].
  apply childNodes_stopMoving.
Qed.

Lemma validateMove_follows s elem :
  well_formed s -> placeholder_follows s -> elem ∈ childNodes (document s) ->
  placeholder_follows (validateMove offset matchesSelector elem s).
Proof.
  intros (Hnd & _ & Hsession) Hf Helem. unfold validateMove.
  destruct (_isMoving (self s)) as [m|] eqn:Hm; [|done].
  destruct (_placeholder (self s)) as [q|] eqn:Hq; [|done].
  destruct (decide (elem = q)); [done|].
  destruct (decide (elem = m)); [done|].
  destruct (moveAccepted _ _ _); [|apply follows_stopMoving].
  destruct Hsession as [[Hidle _]|(d & p & (Hd & Hp) & Hdp & _)]; [congruence|].
  intros d' p' [Hd' Hp']. rewrite self_movePlaceholder in Hd', Hp'.
  assert (d' = d ∧ p' = p) as [-> ->] by (split; congruence).
  by apply movePlaceholder_follows.
Qed.

Lemma validateMove_items s elem :
  well_formed s -> elem ∈ childNodes (document s) ->
  items (validateMove offset matchesSelector elem s) ≡ₚ items s.
Proof.
  intros (Hnd & _ & Hsession) Helem. unfold validateMove.
  destruct (_isMoving (self s)) as [m|] eqn:Hm; [|done].
  destruct (_placeholder (self s)) as [q|] eqn:Hq; [|done].
  destruct (decide (elem = q)); [done|].
  destruct (decide (elem = m)); [done|].
  destruct (moveAccepted _ _ _); [|by rewrite items_stopMoving].
  destruct Hsession as [[Hidle _]|(d & p & Hatt)]; [congruence|].
  unfold items. rewrite self_movePlaceholder, Hq.
  apply detach_Permutation. by apply (movePlaceholder_perm s d p).
Qed.

Lemma step_follows a s :
  well_formed s -> placeholder_follows s -> delivered a s ->
  placeholder_follows (step offset matchesSelector a s).
Proof.
  intros Hs Hf Ha. assert (Hs' := Hs). destruct Hs' as (Hnd & Hbound & Hsession).
  destruct a as [ev|ev|ev| | |elem]; simpl in *.
  - destruct (_isMoving (self s)) as [m|] eqn:Hm;
      [by unfold _onDown; rewrite Hm|].
    destruct (_placeholder (self s)) as [q|] eqn:Hq;
      [by unfold _onDown; rewrite Hm, Hq|].
    destruct (handleRejects matchesSelector ev s) eqn:Hh;
      [by unfold _onDown; rewrite Hm, Hq, Hh|].
    assert (Hfresh : node (allocated (document s)) ∉ childNodes (document s)).
    { intros Hin%Hbound. lia. }
    destruct (onDown_attaches s ev (conj Hm Hq) Hh Hnd Ha Hfresh)
      as (((Hd & Hp) & _) & Hl).
    intros d' p' [Hd' Hp'].
    assert (d' = currentTarget ev ∧ p' = node (allocated (document s)))
      as [-> ->] by (split; congruence).
    rewrite Hl. by apply nextSibling_place_after.
  - by apply validateMove_follows.
  - unfold _onUp.
    destruct (_isMoving (self s)) as [m|] eqn:Hm; [|done].
    destruct (_placeholder (self s)) as [q|] eqn:Hq; [|done].
    destruct (decide (currentTarget ev = m)); [done|].
    destruct (decide (currentTarget ev = q)); [done|].
    apply follows_stopMoving.
  - destruct (cancelMouseOut (options s)); [apply follows_stopMoving|done].
  - apply follows_stopMoving.
  - by apply validateMove_follows.
Qed.

Lemma step_items a s :
  well_formed s -> delivered a s ->
  items (step offset matchesSelector a s) ≡ₚ items s.
Proof.
  intros Hs Ha. assert (Hs' := Hs). destruct Hs' as (Hnd & Hbound & Hsession).
  destruct a as [ev|ev|ev| | |elem]; simpl in *.
  - destruct (_isMoving (self s)) as [m|] eqn:Hm;
      [by unfold _onDown; rewrite Hm|].
    destruct (_placeholder (self s)) as [q|] eqn:Hq;
      [by unfold _onDown; rewrite Hm, Hq|].
    destruct (handleRejects matchesSelector ev s) eqn:Hh;
      [by unfold _onDown; rewrite Hm, Hq, Hh|].
    assert (Hfresh : node (allocated (document s)) ∉ childNodes (document s)).
    { intros Hin%Hbound. lia. }
    destruct (onDown_attaches s ev (conj Hm Hq) Hh Hnd Ha Hfresh)
      as (((Hd & Hp) & _) & Hl).
    unfold items. rewrite Hp, Hq, Hl. by rewrite detach_place_after.
  - by apply validateMove_items.
  - unfold _onUp.
    destruct (_isMoving (self s)) as [m|] eqn:Hm; [|done].
    destruct (_placeholder (self s)) as [q|] eqn:Hq; [|done].
    destruct (decide (currentTarget ev = m)); [done|].
    destruct (decide (currentTarget ev = q)); [done|].
    destruct Hsession as [[Hidle _]|(d & p & (Hd & Hp) & _ & _ & Hdl & _)];
      [congruence|].
    assert (d = m) as -> by congruence.
    rewrite items_stopMoving. unfold items. cbn [self with_document document].
    rewrite Hq, childNodes_insertBefore.
    by apply detach_Permutation, insert_before_perm.
  - destruct (cancelMouseOut (options s)); [by rewrite items_stopMoving|done].
  - by rewrite items_stopMoving.
  - by apply validateMove_items.
Qed.

(** X6. From a state the component can be in, whatever the delivered
    pointer events and calls: the tree never lists an element twice and
    never holds an element not yet handed out, an active session always has
    its dragged item and its placeholder in the tree, and the placeholder
    is always the sibling right behind the dragged item. *)
Theorem run_keeps_well_formed acts s :
  well_formed s -> placeholder_follows s -> all_delivered offset matchesSelector acts s ->
  well_formed (run offset matchesSelector acts s) ∧
  placeholder_follows (run offset matchesSelector acts s).
Proof.
  revert s. induction acts as [|a acts IH]; intros s Hs Hf Hacts; [done|].
  destruct Hacts as [Ha Hrest]. simpl. apply IH; [|by apply step_follows|done].
  by apply step_well_formed.
Qed.

(** X7. The component only reorders: over any run of delivered pointer
    events and calls, the items of the list (the siblings other than the
    placeholder) are a permutation of the items at the start; so from Idle
    to Idle the tree is a permutation of the tree. *)
Theorem run_permutes_items acts s :
  well_formed s -> all_delivered offset matchesSelector acts s ->
  items (run offset matchesSelector acts s) ≡ₚ items s ∧
  (idle s -> idle (run offset matchesSelector acts s) ->
   childNodes (document (run offset matchesSelector acts s)) ≡ₚ
   childNodes (document s)).
Proof.
  intros Hs Hacts.
  assert (Hitems : items (run offset matchesSelector acts s) ≡ₚ items s).
  { revert s Hs Hacts. induction acts as [|a acts IH]; intros s Hs Hacts; [done|].
    destruct Hacts as [Ha Hrest]. simpl.
    rewrite IH; [by apply step_items|by apply step_well_formed|done]. }
  split; [done|]. intros [_ Hq] [_ Hq']. revert Hitems. unfold items.
  by rewrite Hq, Hq'.
Qed.

(** *** Release, and whole gestures *)

Lemma onUp_tree s d p ev :
  dragging d p s -> currentTarget ev <> d -> currentTarget ev <> p ->
  childNodes (document (_onUp ev s)) =
  detach p (insert_before d p (childNodes (document s))).
Proof.
  intros [Hm Hq] Hd Hp. unfold _onUp. rewrite Hm, Hq.
  destruct (decide (currentTarget ev = d)); [done|].
  destruct (decide (currentTarget ev = p)); [done|].
  rewrite childNodes_stopMoving. cbn [self with_document document].
  by rewrite Hq.
Qed.

Lemma options_onDown s ev :
  options (_onDown offset matchesSelector ev s) = options s.
Proof.
  unfold _onDown.
  destruct (_isMoving (self s)); [done|].
  destruct (_placeholder (self s)); [done|].
  destruct (handleRejects _ _ _); [done|].
  unfold cloneNode, options. cbv beta iota zeta.
  by rewrite self_addMovingClasses, self_movePlaceholder.
Qed.

(** X8. When the placeholder is right behind the dragged item, as it is
    after every placement, a committing pointer-up leaves the siblings in
    the order they have, and only takes the placeholder out. *)
Theorem onUp_keeps_order s d p ev :
  dragging d p s -> NoDup (childNodes (document s)) ->
  nextSibling (childNodes (document s)) d = Some p ->
  currentTarget ev <> d -> currentTarget ev <> p ->
  childNodes (document (_onUp ev s)) = detach p (childNodes (document s)) ∧
  idle (_onUp ev s).
Proof.
  intros Hdrag Hnd Hnext Hd Hp. split.
  - rewrite (onUp_tree s d p ev Hdrag Hd Hp).
    by rewrite insert_before_already.
  - destruct Hdrag as [Hm Hq]. unfold _onUp. rewrite Hm, Hq.
    destruct (decide (currentTarget ev = d)); [done|].
    destruct (decide (currentTarget ev = p)); [done|].
    apply idle_stopMoving.
Qed.

(** X9. Pressing an item and releasing it without a move in between, or
    cancelling with [stopMoving], gives back the tree as it was. *)
Theorem press_release_restores s down up :
  idle s -> handleRejects matchesSelector down s = false ->
  NoDup (childNodes (document s)) ->
  currentTarget down ∈ childNodes (document s) ->
  node (allocated (document s)) ∉ childNodes (document s) ->
  currentTarget up <> currentTarget down ->
  currentTarget up <> node (allocated (document s)) ->
  let s1 := _onDown offset matchesSelector down s in
  childNodes (document (_onUp up s1)) = childNodes (document s) ∧
  childNodes (document (stopMoving s1)) = childNodes (document s).
Proof.
  intros Hidle Hh Hnd Ht Hfresh Hup1 Hup2 s1.
  destruct (onDown_attaches s down Hidle Hh Hnd Ht Hfresh)
    as ((Hdrag & _ & Hnd1 & _) & Hl).
  fold s1 in Hdrag, Hnd1, Hl. split.
  - rewrite (onUp_tree s1 _ _ up Hdrag Hup1 Hup2).
    rewrite insert_before_already; [|done|].
    + rewrite Hl. by apply detach_place_after.
    + rewrite Hl. by apply nextSibling_place_after.
  - rewrite childNodes_stopMoving. destruct Hdrag as [_ ->].
    rewrite Hl. by apply detach_place_after.
Qed.

(** A gesture of one move: press [t], move over [C], release.  The tree at
    the end is the tree the placement leaves, less the placeholder. *)
Lemma one_move_gesture s down move up :
  idle s -> handleRejects matchesSelector down s = false ->
  NoDup (childNodes (document s)) ->
  currentTarget down ∈ childNodes (document s) ->
  currentTarget move ∈ childNodes (document s) ->
  currentTarget move <> currentTarget down ->
  node (allocated (document s)) ∉ childNodes (document s) ->
  moveAccepted matchesSelector (currentTarget move)
    (_onDown offset matchesSelector down s) = true ->
  currentTarget up <> currentTarget down ->
  currentTarget up <> node (allocated (document s)) ->
  let t := currentTarget down in
  let C := currentTarget move in
  let c := node (allocated (document s)) in
  let s1 := _onDown offset matchesSelector down s in
  attached t c s1 ∧ C ∈ childNodes (document s1) ∧ C <> c ∧
  detach c (childNodes (document s1)) = childNodes (document s) ∧
  childNodes (document (run offset matchesSelector
                          [PointerDown down; PointerMove move; PointerUp up] s)) =
  detach c (childNodes (document (_movePlaceholder offset C s1))).
Proof.
  intros Hidle Hh Hnd Ht HC HCt Hfresh Hacc Hup1 Hup2 t C c s1.
  destruct (onDown_attaches s down Hidle Hh Hnd Ht Hfresh) as (Hatt & Hl).
  fold t c s1 in Hatt, Hl.
  assert (HCc : C <> c).
  { intros Heq. apply Hfresh. fold c. by rewrite <- Heq. }
  assert (HC1 : C ∈ childNodes (document s1)).
  { rewrite Hl. by apply elem_of_place_after. }
  split; [done|]. split; [done|]. split; [done|]. split.
  { rewrite Hl. by apply detach_place_after. }
  assert (Hatt2 := movePlaceholder_attached s1 t c C Hatt HC1).
  destruct Hatt as ((Hm1 & Hq1) & Hdp & Hnd1 & _).
  assert (Hs2 : validateMove offset matchesSelector C s1 =
                _movePlaceholder offset C s1).
  { unfold validateMove. rewrite Hm1, Hq1.
    destruct (decide (C = c)); [done|]. destruct (decide (C = t)); [done|].
    fold C s1 in Hacc. by rewrite Hacc. }
  cbn [run foldl step]. unfold _onMove. fold s1 C. rewrite Hs2.
  destruct Hatt2 as (Hdrag2 & _ & Hnd2 & _).
  rewrite (onUp_tree _ t c up Hdrag2 Hup1 Hup2).
  rewrite insert_before_already; [done|done|].
  by apply (movePlaceholder_follows s1 t c C).
Qed.

(** X10. A whole gesture in reorder mode: when [t] is pressed, dragged over
    another item [C] and released, [t] ends up right in front of [C] if
    the rule of section 4.2 said "before" at the move, and right behind [C]
    otherwise; the other items keep their order. *)
Theorem reorder_gesture s down move up :
  swap (options s) = false ->
  idle s -> handleRejects matchesSelector down s = false ->
  NoDup (childNodes (document s)) ->
  currentTarget down ∈ childNodes (document s) ->
  currentTarget move ∈ childNodes (document s) ->
  currentTarget move <> currentTarget down ->
  node (allocated (document s)) ∉ childNodes (document s) ->
  moveAccepted matchesSelector (currentTarget move)
    (_onDown offset matchesSelector down s) = true ->
  currentTarget up <> currentTarget down ->
  currentTarget up <> node (allocated (document s)) ->
  let t := currentTarget down in
  let C := currentTarget move in
  let s1 := _onDown offset matchesSelector down s in
  childNodes (document (run offset matchesSelector
                          [PointerDown down; PointerMove move; PointerUp up] s)) =
  if goes_before offset C (node (allocated (document s))) s1
  then place_before t C (detach t (childNodes (document s)))
  else place_after t C (detach t (childNodes (document s))).
Proof.
  intros Hswap Hidle Hh Hnd Ht HC HCt Hfresh Hacc Hup1 Hup2 t C s1.
  destruct (one_move_gesture s down move up Hidle Hh Hnd Ht HC HCt Hfresh Hacc Hup1 Hup2)
    as (Hatt & HC1 & HCc & Hl & ->).
  fold t C s1 in Hatt, HC1, HCc, Hl |- *.
  destruct Hatt as (Hdrag & Hdp & Hnd1 & Ht1 & Hc1).
  rewrite (childNodes_movePlaceholder s1 t _ C Hdrag).
  replace (swap (options s1)) with false
    by (subst s1; by rewrite options_onDown).
  destruct (goes_before _ _ _ _).
  - destruct (reorder_before_relocations t _ C _ Hnd1 Ht1 Hc1 HC1 Hdp HCt HCc)
      as (_ & _ & ->).
    by rewrite Hl.
  - destruct (reorder_after_relocations t _ C _ Hnd1 Ht1 Hc1 HC1 Hdp HCt HCc)
      as (_ & _ & _ & ->).
    by rewrite Hl.
Qed.

(** X11. A whole gesture in swap mode: when [t] is pressed, dragged over
    another item [C] and released, [t] and [C] have traded places and every
    other item is where it was. *)
Theorem swap_gesture s down move up :
  swap (options s) = true ->
  idle s -> handleRejects matchesSelector down s = false ->
  NoDup (childNodes (document s)) ->
  currentTarget down ∈ childNodes (document s) ->
  currentTarget move ∈ childNodes (document s) ->
  currentTarget move <> currentTarget down ->
  node (allocated (document s)) ∉ childNodes (document s) ->
  moveAccepted matchesSelector (currentTarget move)
    (_onDown offset matchesSelector down s) = true ->
  currentTarget up <> currentTarget down ->
  currentTarget up <> node (allocated (document s)) ->
  childNodes (document (run offset matchesSelector
                          [PointerDown down; PointerMove move; PointerUp up] s)) =
  exchange (currentTarget down) (currentTarget move) (childNodes (document s)).
Proof.
  intros Hswap Hidle Hh Hnd Ht HC HCt Hfresh Hacc Hup1 Hup2.
  destruct (one_move_gesture s down move up Hidle Hh Hnd Ht HC HCt Hfresh Hacc Hup1 Hup2)
    as (Hatt & HC1 & HCc & Hl & ->).
  destruct Hatt as (Hdrag & Hdp & Hnd1 & Ht1 & Hc1).
  rewrite (childNodes_movePlaceholder _ _ _ _ Hdrag).
  rewrite options_onDown, Hswap.
  destruct (swap_relocations _ _ _ _ Hnd1 Ht1 Hc1 HC1 Hdp HCt HCc) as (-> & _).
  by rewrite Hl.
Qed.

(** X12. What a placement in reorder mode shows: among the items, the
    dragged item [d] is taken out and put right in front of the candidate
    [C], or right behind it, as the rule of section 4.2 says; no other item
    moves. *)
Theorem reorder_items s d p C :
  swap (options s) = false -> attached d p s ->
  C ∈ childNodes (document s) -> C <> d -> C <> p ->
  items (_movePlaceholder offset C s) =
  if goes_before offset C p s then place_before d C (detach d (items s))
  else place_after d C (detach d (items s)).
Proof.
  intros Hswap (Hdrag & Hdp & Hnd & Hd & Hp) HC HCd HCp.
  unfold items. rewrite self_movePlaceholder.
  rewrite (childNodes_movePlaceholder s d p C Hdrag), Hswap.
  destruct Hdrag as [_ ->].
  destruct (goes_before _ _ _ _).
  - by destruct (reorder_before_relocations d p C _ Hnd Hd Hp HC Hdp HCd HCp)
      as (_ & _ & ->).
  - by destruct (reorder_after_relocations d p C _ Hnd Hd Hp HC Hdp HCd HCp)
      as (_ & _ & _ & ->).
Qed.

(** X13. In swap mode a second placement on the same candidate undoes the
    first: with the placeholder right behind the dragged item, two
    placements in a row on [C] give back the tree as it was. *)
Theorem swap_twice_restores s d p C :
  swap (options s) = true -> attached d p s ->
  nextSibling (childNodes (document s)) d = Some p ->
  C ∈ childNodes (document s) -> C <> d -> C <> p ->
  childNodes (document (_movePlaceholder offset C (_movePlaceholder offset C s))) =
  childNodes (document s).
Proof.
  intros Hswap Hatt Hnext HC HCd HCp.
  set (s1 := _movePlaceholder offset C s).
  assert (Hatt1 : attached d p s1) by (by apply movePlaceholder_attached).
  assert (Hswap1 : swap (options s1) = true).
  { unfold options, s1. by rewrite self_movePlaceholder. }
  destruct Hatt as (Hdrag & Hdp & Hnd & Hd & Hp).
  assert (HC1 : C ∈ childNodes (document s1)).
  { destruct Hdrag as [Hm Hq].
    by apply (movePlaceholder_tree s d p C Hm Hq Hnd HC). }
  assert (Hl1 : detach p (childNodes (document s1)) =
                exchange d C (detach p (childNodes (document s)))).
  { unfold s1. rewrite (childNodes_movePlaceholder s d p C Hdrag), Hswap.
    by apply swap_relocations. }
  destruct Hatt1 as (Hdrag1 & _ & Hnd1 & Hd1 & Hp1).
  assert (Hnd2 : NoDup (childNodes (document (_movePlaceholder offset C s1)))).
  { destruct Hdrag1 as [Hm1 Hq1].
    by apply (movePlaceholder_tree s1 d p C Hm1 Hq1 Hnd1 HC1). }
  revert Hnd2. rewrite (childNodes_movePlaceholder s1 d p C Hdrag1), Hswap1.
  destruct (swap_relocations d p C _ Hnd1 Hd1 Hp1 HC1 Hdp HCd HCp) as (Hl2 & Hnext2).
  intros Hnd2.
  rewrite (place_after_detach p d _ Hnd2 Hnext2), Hl2, Hl1, exchange_involutive.
  symmetry. by apply place_after_detach.
Qed.

End ComponentFacts.


(** ** The theorems at work on the three-item list *)

Ltac by_computation :=
  first [ reflexivity | discriminate
        | apply (bool_decide_unpack _); vm_compute; exact I ].

Ltac session_by_computation :=
  unfold attached, dragging, idle; repeat split; by_computation.

(** The scenarios of section 8 of the spec, run through the handlers. *)

(** [A; B; C] stacked in a column; [A] is pressed, dragged over [C] and
    released: the order is [B; C; A], and no marker is left. *)
Example reorder_scenario :
  let s := run column_offset matches_class
             [PointerDown (press (node 0)); PointerMove (press (node 2));
              PointerUp (press documentElement)]
             (initial defaultOptions three_items) in
  childNodes (document s) = [node 1; node 2; node 0] ∧
  classNames (document s) = ∅ ∧ idle s.
Proof. repeat split; by_computation. Qed.

(** The same gesture where each item lies below and to the right of the one
    before: the placeholder goes in front of [C], and the order on release
    is [B; A; C]. *)
Example reorder_diagonal_scenario :
  let s := run diagonal_offset matches_class
             [PointerDown (press (node 0)); PointerMove (press (node 2))]
             (initial defaultOptions three_items) in
  childNodes (document s) = [node 1; node 0; node 3; node 2] ∧
  childNodes (document (_onUp (press documentElement) s)) =
    [node 1; node 0; node 2].
Proof. repeat split; by_computation. Qed.

(** Swap mode: [A] dragged over [B] gives [B; A; C]. *)
Example swap_scenario :
  let s := run column_offset matches_class
             [PointerDown (press (node 0)); PointerMove (press (node 1));
              PointerUp (press documentElement)]
             (initial swapOptions three_items) in
  childNodes (document s) = [node 1; node 0; node 2].
Proof. by_computation. Qed.

(** A [moveSelector] that excludes [C]: moving over [C] cancels, the order
    is the original one, and the next pointer-down starts a drag again. *)
Example cancel_scenario :
  let s := run column_offset matches_class
             [PointerDown (press (node 0)); PointerMove (press (node 2))]
             (initial pickyOptions three_items) in
  childNodes (document s) = [node 0; node 1; node 2] ∧ idle s ∧
  dragging (node 1) (node 4)
    (step column_offset matches_class (PointerDown (press (node 1))) s).
Proof. repeat split; by_computation. Qed.

(** The initial state of such a run is one the component can be in. *)
Example initial_well_formed (opts : Options) :
  well_formed (initial opts three_items).
Proof.
  split; [by_computation|]. split; [|by left].
  intros n Hn. simpl in Hn. rewrite !elem_of_cons, elem_of_nil in Hn.
  destruct Hn as [[= ->]|[[= ->]|[[= ->]|[]]]]; simpl; lia.
Qed.

Lemma reorder_placement_witness :
  let s := first_pressed defaultOptions in
  let s' := _movePlaceholder column_offset (node 2) s in
  attached (node 0) (node 3) s ∧
  goes_before column_offset (node 2) (node 3) s = false ∧
  s' = with_document (Element_insertBefore (Some (node 0)) (Some (node 3)))
         (with_document (Element_insertAfter (Some (node 3)) (Some (node 2))) s) ∧
  childNodes (document s') = [node 1; node 2; node 0; node 3].
Proof.
  intros s s'.
  assert (Ha : attached (node 0) (node 3) s) by session_by_computation.
  split; [exact Ha|]. split; [reflexivity|]. split; [|reflexivity].
  apply (reorder_placement column_offset s (node 0) (node 3) (node 2));
    [reflexivity | exact Ha | by_computation | discriminate | discriminate].
Defined.

Lemma swap_placement_witness :
  let s := first_pressed swapOptions in
  let s' := _movePlaceholder column_offset (node 2) s in
  attached (node 0) (node 3) s ∧
  detach (node 3) (childNodes (document s')) =
    exchange (node 0) (node 2) (detach (node 3) (childNodes (document s))) ∧
  nextSibling (childNodes (document s')) (node 0) = Some (node 3).
Proof.
  intros s s'.
  assert (Ha : attached (node 0) (node 3) s) by session_by_computation.
  split; [exact Ha|].
  apply (swap_placement column_offset s (node 0) (node 3) (node 2));
    [reflexivity | exact Ha | by_computation | discriminate | discriminate].
Defined.

(** C2, as the spec has it, fails on the three-item list: with [A] dragged
    over [C] in swap mode the tree [A; P; B; C] becomes [C; B; A; P], where
    the placeholder [P] is not next to [C]; and [A] does not get the place
    in the tree [C] had, since the placeholder is counted there. *)
Lemma swap_placeholder_not_next_to_candidate :
  let s := first_pressed swapOptions in
  let s' := _movePlaceholder column_offset (node 2) s in
  swap (options s) = true ∧ attached (node 0) (node 3) s ∧
  childNodes (document s) = [node 0; node 3; node 1; node 2] ∧
  childNodes (document s') = [node 2; node 1; node 0; node 3] ∧
  ¬ adjacent (childNodes (document s')) (node 3) (node 2) ∧
  position (node 0) (childNodes (document s')) <>
    position (node 2) (childNodes (document s)).
Proof.
  intros s s'. split; [reflexivity|]. split; [session_by_computation|].
  split; [reflexivity|]. split; [reflexivity|]. split.
  - intros [H|H]; vm_compute in H; discriminate.
  - vm_compute. discriminate.
Qed.

Lemma validateMove_cancels_witness :
  let s := first_pressed pickyOptions in
  let s' := validateMove column_offset matches_class (node 2) s in
  dragging (node 0) (node 3) s ∧
  s' = stopMoving s ∧ idle s' ∧
  childNodes (document s') = [node 0; node 1; node 2].
Proof.
  intros s s'.
  assert (Hd : dragging (node 0) (node 3) s) by session_by_computation.
  split; [exact Hd|].
  destruct (validateMove_cancels column_offset matches_class s (node 0) (node 3)
              (node 2) "droppable") as (H1 & H2 & H3 & _);
    [exact Hd | reflexivity | discriminate | reflexivity | discriminate
    | discriminate |].
  split; [exact H1|]. split; [exact H2|]. reflexivity.
Defined.

Lemma onUp_commits_witness :
  let s := _movePlaceholder column_offset (node 2) (first_pressed defaultOptions) in
  let s' := _onUp (press documentElement) s in
  dragging (node 0) (node 3) s ∧
  idle s' ∧ childNodes (document s') = [node 1; node 2; node 0].
Proof.
  intros s s'.
  assert (Hd : dragging (node 0) (node 3) s) by session_by_computation.
  split; [exact Hd|].
  destruct (onUp_commits s (node 0) (node 3) (press documentElement))
    as (_ & H2 & _); [exact Hd | discriminate | discriminate |].
  split; [exact H2|]. reflexivity.
Defined.

Lemma session_invariant_witness :
  session_ok (initial defaultOptions three_items) ∧
  session_ok (step column_offset matches_class (PointerDown (press (node 0)))
                (initial defaultOptions three_items)).
Proof.
  destruct (session_invariant column_offset matches_class) as [Hinit Hstep].
  split; [apply Hinit|]. apply Hstep, Hinit.
Defined.

Lemma validateMove_no_op_witness :
  let s := first_pressed defaultOptions in
  _isMoving (self s) = Some (node 0) ∧
  validateMove column_offset matches_class (node 0) s = s.
Proof.
  intros s. split; [reflexivity|].
  apply (validateMove_no_op column_offset matches_class s (node 0)).
  left. reflexivity.
Defined.

Lemma stopMoving_idempotent_witness :
  let s := initial defaultOptions three_items in
  idle s ∧ stopMoving (stopMoving s) = stopMoving s ∧
  childNodes (document (stopMoving s)) = childNodes (document s).
Proof.
  intros s.
  assert (Hi : idle s) by session_by_computation.
  destruct (stopMoving_idempotent s) as (H1 & _ & H3).
  split; [exact Hi|]. split; [exact H1|]. apply (H3 Hi).
Defined.


Lemma onDown_ignored_witness :
  let busy := first_pressed defaultOptions in
  let gripless := initial gripOptions three_items in
  is_Some (_isMoving (self busy)) ∧
  _onDown column_offset matches_class (press (node 1)) busy = busy ∧
  _onDown column_offset matches_class (press (node 1)) gripless = gripless.
Proof.
  intros busy gripless.
  assert (Hb : is_Some (_isMoving (self busy))) by (exists (node 0); reflexivity).
  split; [exact Hb|]. split.
  - apply (onDown_ignored column_offset matches_class busy (press (node 1))).
    left. exact Hb.
  - apply (onDown_ignored column_offset matches_class gripless (press (node 1))).
    right; right. exists "grip". repeat split; by_computation.
Defined.

Lemma movePlaceholder_adjacent_witness :
  let s := first_pressed swapOptions in
  NoDup (childNodes (document s)) ∧
  nextSibling (childNodes (document (_movePlaceholder column_offset (node 1) s)))
              (node 0) = Some (node 3).
Proof.
  intros s.
  assert (Hnd : NoDup (childNodes (document s))) by by_computation.
  split; [exact Hnd|].
  apply (movePlaceholder_adjacent column_offset s (node 0) (node 3) (node 1));
    [reflexivity | reflexivity | discriminate | exact Hnd | by_computation
    | by_computation | discriminate].
Defined.

(** ** Whole gestures on the three-item list *)

Lemma onDown_begins_drag_witness :
  let s := initial defaultOptions three_items in
  let s' := _onDown column_offset matches_class (press (node 0)) s in
  idle s ∧ dragging (node 0) (node 3) s' ∧
  childNodes (document s') = place_after (node 3) (node 0) (childNodes (document s)) ∧
  items s' = childNodes (document s).
Proof.
  intros s s'. split; [session_by_computation|].
  destruct (onDown_begins_drag column_offset matches_class s (press (node 0)))
    as (H1 & H2 & _ & H4); [session_by_computation | reflexivity | by_computation
                           | by_computation | by_computation |].
  split; [exact H1|]. split; [exact H2|exact H4].
Defined.

Lemma onDown_marks_witness :
  let s := initial defaultOptions three_items in
  let s' := _onDown column_offset matches_class (press (node 0)) s in
  idle s ∧ marked (node 3) "placeholder" s' ∧ marked (node 0) "hide-all" s' ∧
  marked documentElement "dragging" s'.
Proof.
  intros s s'. split; [session_by_computation|].
  destruct (onDown_marks column_offset matches_class s (press (node 0)))
    as (H1 & H2 & H3 & _); [session_by_computation | reflexivity |].
  split; [exact H1|]. split; [exact H2|exact H3].
Defined.

Lemma moving_classes_round_trip_witness :
  dragging (node 0) (node 3) unmarked_drag ∧
  document (_removeMovingClasses (_addMovingClasses unmarked_drag)) =
  document unmarked_drag.
Proof.
  assert (Hd : dragging (node 0) (node 3) unmarked_drag) by session_by_computation.
  split; [exact Hd|].
  apply (moving_classes_round_trip unmarked_drag (node 0) (node 3) Hd);
    apply not_elem_of_empty.
Defined.

Lemma onUp_ignored_witness :
  let s := first_pressed defaultOptions in
  _isMoving (self s) = Some (node 0) ∧ _onUp (press (node 0)) s = s.
Proof.
  intros s. split; [reflexivity|].
  apply (onUp_ignored s (press (node 0))). right; right; left. reflexivity.
Defined.

Lemma run_keeps_well_formed_witness :
  let s := initial defaultOptions three_items in
  all_delivered column_offset matches_class drag_first_over_last s ∧
  well_formed (run column_offset matches_class drag_first_over_last s) ∧
  placeholder_follows (run column_offset matches_class drag_first_over_last s).
Proof.
  intros s.
  assert (Hacts : all_delivered column_offset matches_class drag_first_over_last s).
  { cbn [all_delivered delivered drag_first_over_last]. repeat split; by_computation. }
  split; [exact Hacts|].
  apply (run_keeps_well_formed column_offset matches_class drag_first_over_last s);
    [apply initial_well_formed | | exact Hacts].
  intros d p [Hd _]. discriminate Hd.
Defined.

Lemma run_permutes_items_witness :
  let s := initial defaultOptions three_items in
  all_delivered column_offset matches_class drag_first_over_last s ∧
  items (run column_offset matches_class drag_first_over_last s) ≡ₚ items s.
Proof.
  intros s.
  assert (Hacts : all_delivered column_offset matches_class drag_first_over_last s).
  { cbn [all_delivered delivered drag_first_over_last]. repeat split; by_computation. }
  split; [exact Hacts|].
  destruct (run_permutes_items column_offset matches_class drag_first_over_last s
              (initial_well_formed defaultOptions) Hacts) as [Hitems _].
  exact Hitems.
Defined.

Lemma onUp_keeps_order_witness :
  let s := _movePlaceholder column_offset (node 2) (first_pressed defaultOptions) in
  nextSibling (childNodes (document s)) (node 0) = Some (node 3) ∧
  childNodes (document (_onUp (press documentElement) s)) =
  detach (node 3) (childNodes (document s)).
Proof.
  intros s. split; [reflexivity|].
  apply (onUp_keeps_order s (node 0) (node 3) (press documentElement));
    [session_by_computation | by_computation | reflexivity | discriminate
    | discriminate].
Defined.

Lemma press_release_restores_witness :
  let s := initial defaultOptions three_items in
  let s1 := _onDown column_offset matches_class (press (node 0)) s in
  idle s ∧
  childNodes (document (_onUp (press documentElement) s1)) = childNodes (document s) ∧
  childNodes (document (stopMoving s1)) = childNodes (document s).
Proof.
  intros s s1. split; [session_by_computation|].
  apply (press_release_restores column_offset matches_class s (press (node 0))
           (press documentElement));
    [session_by_computation | reflexivity | by_computation | by_computation
    | by_computation | discriminate | discriminate].
Defined.

Lemma reorder_gesture_witness :
  let s := initial defaultOptions three_items in
  idle s ∧
  childNodes (document (run column_offset matches_class drag_first_over_last s)) =
  place_after (node 0) (node 2) (detach (node 0) (childNodes (document s))).
Proof.
  intros s. split; [session_by_computation|].
  apply (reorder_gesture column_offset matches_class s (press (node 0))
           (press (node 2)) (press documentElement));
    [reflexivity | session_by_computation | reflexivity | by_computation
    | by_computation | by_computation | discriminate | by_computation
    | reflexivity | discriminate | discriminate].
Defined.

Lemma swap_gesture_witness :
  let s := initial swapOptions three_items in
  idle s ∧
  childNodes (document (run column_offset matches_class drag_first_over_last s)) =
  exchange (node 0) (node 2) (childNodes (document s)).
Proof.
  intros s. split; [session_by_computation|].
  apply (swap_gesture column_offset matches_class s (press (node 0))
           (press (node 2)) (press documentElement));
    [reflexivity | session_by_computation | reflexivity | by_computation
    | by_computation | by_computation | discriminate | by_computation
    | reflexivity | discriminate | discriminate].
Defined.

Lemma reorder_items_witness :
  let s := first_pressed defaultOptions in
  attached (node 0) (node 3) s ∧
  items (_movePlaceholder column_offset (node 2) s) =
  place_after (node 0) (node 2) (detach (node 0) (items s)).
Proof.
  intros s.
  assert (Ha : attached (node 0) (node 3) s) by session_by_computation.
  split; [exact Ha|].
  apply (reorder_items column_offset s (node 0) (node 3) (node 2));
    [reflexivity | exact Ha | by_computation | discriminate | discriminate].
Defined.

Lemma swap_twice_restores_witness :
  let s := first_pressed swapOptions in
  attached (node 0) (node 3) s ∧
  childNodes (document (_movePlaceholder column_offset (node 2)
                          (_movePlaceholder column_offset (node 2) s))) =
  childNodes (document s).
Proof.
  intros s.
  assert (Ha : attached (node 0) (node 3) s) by session_by_computation.
  split; [exact Ha|].
  apply (swap_twice_restores column_offset s (node 0) (node 3) (node 2));
    [reflexivity | exact Ha | reflexivity | by_computation | discriminate
    | discriminate].
Defined.
